(** * pylauncher: fuzzy scorer, rank engine, entry repository, selection loop

    A shallow embedding of [src/pylauncher/pylauncher.py].

    Python [str] values are modelled as lists of characters, a character
    being a code point in the range 0..255 ([ascii]).  On that range
    [str.lower], [str.isspace] and [str.isprintable] act character by
    character, as written out below.  Python [int] values are [Z]. *)

From Stdlib Require Import ZArith Lia Ascii String.
From stdpp Require Import base decidable option list sorting strings gmap.

Local Open Scope Z_scope.

(** ** Strings *)

Definition str := list ascii.

(** A string literal. *)
Definition lit (s : string) : str := list_ascii_of_string s.

Definition ord (c : ascii) : Z := Z.of_nat (nat_of_ascii c).
Definition chr (n : Z) : ascii := ascii_of_nat (Z.to_nat n).

(** [len(s)] *)
Definition len {A} (l : list A) : Z := Z.of_nat (length l).

(** [str.lower] on one code point: A-Z, and the upper-case letters of the
    range 0xC0..0xDE (0xD7, the multiplication sign, apart). *)
Definition lower_char (c : ascii) : ascii :=
  let n := ord c in
  if ((65 <=? n) && (n <=? 90)) || ((192 <=? n) && (n <=? 222) && negb (n =? 215))
  then chr (n + 32) else c.

Definition lower (s : str) : str := map lower_char s.

(** [str.isspace] on one code point; also the class [\s] of [re]. *)
Definition isspace (c : ascii) : bool :=
  let n := ord c in
  ((9 <=? n) && (n <=? 13)) || ((28 <=? n) && (n <=? 32)) || (n =? 133) || (n =? 160).

(** [str.isprintable] on one code point. *)
Definition isprintable (c : ascii) : bool :=
  let n := ord c in
  ((32 <=? n) && (n <=? 126)) || ((161 <=? n) && (n <=? 255) && negb (n =? 173)).

(** [s.lstrip()], [s.rstrip()], [s.strip()] *)
Fixpoint lstrip (s : str) : str :=
  match s with
  | c :: s' => if isspace c then lstrip s' else s
  | [] => []
  end.

Definition rstrip (s : str) : str := reverse (lstrip (reverse s)).

Definition strip (s : str) : str := rstrip (lstrip s).

(** [t.startswith(q)] *)
Fixpoint startswith (t q : str) {struct q} : bool :=
  match q, t with
  | [], _ => true
  | _ :: _, [] => false
  | a :: q', b :: t' => bool_decide (a = b) && startswith t' q'
  end.

(** Offset of the first occurrence of [ch] in [t], if any. *)
Fixpoint index_of (ch : ascii) (t : str) : option nat :=
  match t with
  | [] => None
  | c :: t' => if bool_decide (c = ch) then Some 0%nat else S <$> index_of ch t'
  end.

(** [t.find(ch, i)]: the lowest index [>= i] holding [ch], or [-1].  A
    negative [i] counts from the end, as in Python. *)
Definition find (t : str) (ch : ascii) (i : Z) : Z :=
  let start := if i <? 0 then Z.max 0 (i + len t) else i in
  match index_of ch (drop (Z.to_nat start) t) with
  | Some k => start + Z.of_nat k
  | None => -1
  end.

(** [s[:-1]] *)
Definition drop_last (s : str) : str := take (length s - 1)%nat s.

(** ** Fuzzy scorer *)

(** The [for ch in q] loop of [fuzzy_score]: [None] is the early
    [return None], [Some score] the score when the loop ends. *)
Fixpoint score_loop (t q : str) (i score : Z) : option Z :=
  match q with
  | [] => Some score
  | ch :: q' =>
      let pos := find t ch i in
      if pos =? -1 then None
      else score_loop t q' (pos + 1) (score + (pos - i))
  end.

(** The general case of [fuzzy_score] (the code after the two early
    returns), on the lowercased [q] and [t]. *)
Definition general_score (q t : str) : option Z :=
  score ← score_loop t q 0 0;
  Some (score + (len t - len q)).

Definition fuzzy_score (query text : str) : option Z :=
  let q := lower query in
  let t := lower text in
  if bool_decide (q = []) then Some 0
  else if startswith t q then Some 0
  else general_score q t.

(** ** Stable sort

    [list.sort(key=...)] is a stable sort that compares keys with [<] only.
    The model is the stable insertion sort: an element is placed after
    every element whose key is not greater than its own. *)

Section sort_by.
Context {A K : Type} (lt : K → K → bool) (key : A → K).

Fixpoint insert_by (x : A) (l : list A) : list A :=
  match l with
  | [] => [x]
  | y :: l' => if lt (key y) (key x) then y :: insert_by x l' else x :: l
  end.

Definition sort_by (l : list A) : list A := foldr insert_by [] l.
End sort_by.

(** [a < b] on strings: lexicographic on code points. *)
Fixpoint str_lt (a b : str) : bool :=
  match a, b with
  | _, [] => false
  | [], _ :: _ => true
  | x :: a', y :: b' => if bool_decide (x = y) then str_lt a' b' else ord x <? ord y
  end.

(** [a < b] on [(int, str)] tuples. *)
Definition key_lt (a b : Z * str) : bool :=
  if a.1 =? b.1 then str_lt a.2 b.2 else a.1 <? b.1.

(** ** Entry repository *)

Record DesktopEntry := {
  name : str;
  exec : str;
  comment : str;
  terminal : bool;
  path : str;
  no_display : bool;
  categories : str;
}.

(** The class [[a-zA-Z@]]. *)
Definition is_field_code (c : ascii) : bool :=
  let n := ord c in
  ((97 <=? n) && (n <=? 122)) || ((65 <=? n) && (n <=? 90)) || (n =? 64).

(** [re.sub(r"%[a-zA-Z@]", "", s)] *)
Fixpoint sub_field_codes (s : str) : str :=
  match s with
  | [] => []
  | c :: s' =>
      match s' with
      | d :: s'' =>
          if bool_decide (c = "%"%char) && is_field_code d
          then sub_field_codes s''
          else c :: sub_field_codes s'
      | [] => [c]
      end
  end.

(** [re.sub(r"\s+", " ", s)]; [in_run] tells that the previous character
    was white space, already replaced. *)
Fixpoint sub_spaces_from (in_run : bool) (s : str) : str :=
  match s with
  | [] => []
  | c :: s' =>
      if isspace c
      then (if in_run then sub_spaces_from true s' else " "%char :: sub_spaces_from true s')
      else c :: sub_spaces_from false s'
  end.

Definition sub_spaces (s : str) : str := sub_spaces_from false s.

Definition sanitize_exec_field (exec_field : str) : str :=
  let s := exec_field in
  let s := sub_field_codes s in
  let s := strip (sub_spaces s) in
  s.

Definition clean_text (s : str) : str :=
  if bool_decide (s = []) then []
  else
    let s := filter (λ ch, isprintable ch = true) s in
    let s := strip (sub_spaces s) in
    s.

(** The options of the [Desktop Entry] section as [ConfigParser] holds
    them: option names lowercased, values stripped. *)
Abbreviation section := (gmap str str).

(** [sec.get(opt, fallback=...)]: option names are looked up
    lowercased. *)
Definition sec_get (sec : section) (opt : str) (fallback : str) : str :=
  default fallback (sec !! lower opt).

(** [sec.getboolean(opt, fallback=...)]; [None] is the [ValueError] of
    a value that is no boolean. *)
Definition convert_to_boolean (value : str) : option bool :=
  let v := lower value in
  if bool_decide (v ∈ [lit "1"; lit "yes"; lit "true"; lit "on"]) then Some true
  else if bool_decide (v ∈ [lit "0"; lit "no"; lit "false"; lit "off"]) then Some false
  else None.

Definition sec_getboolean (sec : section) (opt : str) (fallback : bool) : option bool :=
  match sec !! lower opt with
  | None => Some fallback
  | Some value => convert_to_boolean value
  end.

(** Offset of the last occurrence of [ch] in [t], if any. *)
Fixpoint rindex_of (ch : ascii) (t : str) : option nat :=
  match t with
  | [] => None
  | c :: t' =>
      match rindex_of ch t' with
      | Some k => Some (S k)
      | None => if bool_decide (c = ch) then Some 0%nat else None
      end
  end.

(** [os.path.basename(p)] *)
Definition basename (p : str) : str :=
  match rindex_of "/"%char p with
  | Some k => drop (S k) p
  | None => p
  end.

(** [os.path.splitext(p)[0]] for a [p] without ['/'] (a base name): cut at
    the last dot, unless only dots precede it. *)
Definition splitext_root (p : str) : str :=
  match rindex_of "."%char p with
  | Some k => if forallb (λ c, bool_decide (c = "."%char)) (take k p) then p else take k p
  | None => p
  end.

(** [parse_desktop_file(path)].  [file] is what [ConfigParser] makes of the
    file at [path]: [None] when reading or parsing raises or the file has
    no [Desktop Entry] section, otherwise that section.  Every exception
    ends in [return None]. *)
Definition parse_desktop_file (path : str) (file : option section) : option DesktopEntry :=
  sec ← file;
  no_display ← sec_getboolean sec (lit "NoDisplay") false;
  let name := sec_get sec (lit "Name") (splitext_root (basename path)) in
  let exec_field := sec_get sec (lit "Exec") [] in
  if bool_decide (exec_field = []) then None
  else
    let comment := sec_get sec (lit "Comment") [] in
    terminal ← sec_getboolean sec (lit "Terminal") false;
    let categories := sec_get sec (lit "Categories") [] in
    let exec_clean := sanitize_exec_field exec_field in
    let comment_clean := clean_text comment in
    Some {| name := name; exec := exec_clean; comment := comment_clean;
            terminal := terminal; path := path; no_display := no_display;
            categories := categories |}.

(** The file system as the load sees it: [fs_glob base] is
    [glob.glob(os.path.join(base, "*.desktop"))], in the order [glob]
    returns the paths, and [[]] when [glob] raises (the list is built
    before the first file is looked at, and the [except] branch goes on to
    the next directory); [fs_read p] is the parsed file at [p]. *)
Record FileSystem := {
  fs_glob : str → list str;
  fs_read : str → option section;
}.

(** One iteration of the inner loop of [collect_desktop_entries], on the
    state [(seen_names, entries)]. *)
Definition collect_file (fs : FileSystem) (st : gset str * list DesktopEntry) (p : str)
    : gset str * list DesktopEntry :=
  match parse_desktop_file p (fs_read fs p) with
  | None => st
  | Some d =>
      if no_display d then st
      else if bool_decide (name d ∈ st.1) then st
      else ({[name d]} ∪ st.1, st.2 ++ [d])
  end.

Definition collect_dir (fs : FileSystem) (st : gset str * list DesktopEntry) (base : str)
    : gset str * list DesktopEntry :=
  foldl (collect_file fs) st (fs_glob fs base).

Definition collect_desktop_entries (fs : FileSystem) (paths : list str) : list DesktopEntry :=
  let entries := (foldl (collect_dir fs) (∅, []) paths).2 in
  sort_by str_lt (λ x, lower (name x)) entries.

(** ** Filter/rank engine and selection loop *)

(** The state of [LauncherUI] that the selection loop reads and writes. *)
Record LauncherUI := {
  entries : list DesktopEntry;
  query : str;
  filtered : list (DesktopEntry * Z);
  selected : Z;
}.

(** One iteration of the loop over [texts] in [update_filter], on [best]. *)
Definition best_step (q : str) (best : option Z) (t : str) : option Z :=
  match fuzzy_score q t with
  | None => best
  | Some s =>
      match best with
      | None => Some s
      | Some b => if s <? b then Some s else best
      end
  end.

Definition texts (e : DesktopEntry) : list str :=
  [name e; comment e; categories e; exec e].

Definition best_score (q : str) (e : DesktopEntry) : option Z :=
  foldl (best_step q) None (texts e).

(** The list [scored] of [update_filter] before it is sorted. *)
Definition scored (q : str) (es : list DesktopEntry) : list (DesktopEntry * Z) :=
  omap (λ e, best ← best_score q e; Some (e, best)) es.

(** The sort key [(x[1], x[0].name.lower())]. *)
Definition rank_key (x : DesktopEntry * Z) : Z * str := (x.2, lower (name x.1)).

(** The list [scored] of [update_filter] after the sort, for the stripped
    query [q]. *)
Definition rank (q : str) (es : list DesktopEntry) : list (DesktopEntry * Z) :=
  sort_by key_lt rank_key (scored q es).

Definition update_filter (ui : LauncherUI) : LauncherUI :=
  let q := strip (query ui) in
  let filtered := rank q (entries ui) in
  let selected :=
    if len filtered <=? selected ui then Z.max 0 (len filtered - 1) else selected ui in
  {| entries := entries ui; query := query ui; filtered := filtered; selected := selected |}.

(** [LauncherUI.__init__] *)
Definition init (es : list DesktopEntry) : LauncherUI :=
  update_filter {| entries := es; query := []; filtered := []; selected := 0 |}.

(** [l[i]] with Python's negative indices; [None] is [IndexError]. *)
Definition getitem {A} (l : list A) (i : Z) : option A :=
  if 0 <=? i then l !! Z.to_nat i
  else if - len l <=? i then l !! Z.to_nat (len l + i)
  else None.

(** What [get_wch] returns: a one-character string or a key code. *)
Inductive wch :=
  | WStr (c : ascii)
  | WInt (k : Z).

Definition KEY_DOWN : Z := 258.
Definition KEY_UP : Z := 259.
Definition KEY_BACKSPACE : Z := 263.
Definition KEY_NPAGE : Z := 338.
Definition KEY_PPAGE : Z := 339.

(** What one iteration of the loop of [run] does after [get_wch]. *)
Inductive outcome :=
  | Continue (ui : LauncherUI)    (* next iteration *)
  | Launch (entry : DesktopEntry) (* [self.launch(entry, in_terminal=False); return] *)
  | Cancel                        (* [return] on escape *)
  | IndexError.                   (* [self.filtered[self.selected]] out of range *)

Definition with_query (ui : LauncherUI) (q : str) : LauncherUI :=
  {| entries := entries ui; query := q; filtered := filtered ui; selected := selected ui |}.

Definition with_selected (ui : LauncherUI) (i : Z) : LauncherUI :=
  {| entries := entries ui; query := query ui; filtered := filtered ui; selected := i |}.

Definition handle (ui : LauncherUI) (ch : wch) : outcome :=
  match ch with
  | WStr c =>
      if bool_decide (c = "010"%char) then
        if bool_decide (filtered ui = []) then Continue ui
        else
          match getitem (filtered ui) (selected ui) with
          | Some x => Launch x.1
          | None => IndexError
          end
      else if bool_decide (c = "027"%char) then Cancel
      else if bool_decide (c = "009"%char) then Continue ui
      else if bool_decide (c ∈ ["127"%char; "008"%char; "008"%char; "127"%char]) then
        Continue (update_filter (with_query ui (drop_last (query ui))))
      else if isprintable c then
        Continue (update_filter (with_query ui (query ui ++ [c])))
      else Continue ui
  | WInt k =>
      if bool_decide (k = KEY_BACKSPACE) then
        Continue (update_filter (with_query ui (drop_last (query ui))))
      else if bool_decide (k = KEY_UP) then
        Continue (with_selected ui (Z.max 0 (selected ui - 1)))
      else if bool_decide (k = KEY_DOWN) then
        Continue (with_selected ui (Z.min (Z.max 0 (len (filtered ui) - 1)) (selected ui + 1)))
      else if bool_decide (k = KEY_NPAGE) then
        Continue (with_selected ui (Z.min (len (filtered ui) - 1) (selected ui + 10)))
      else if bool_decide (k = KEY_PPAGE) then
        Continue (with_selected ui (Z.max 0 (selected ui - 10)))
      else Continue ui
  end.

(** The entry [draw] and [draw_powerline] show: [cur] is
    [self.filtered[self.selected][0]] when [filtered] is not empty.  The
    outer [None] is [IndexError], the one exception of [draw] that no
    [try] catches. *)
Definition draw_cur (ui : LauncherUI) : option (option DesktopEntry) :=
  if bool_decide (filtered ui = []) then Some None
  else x ← getitem (filtered ui) (selected ui); Some (Some x.1).

(** How [run] ends on a finite input. *)
Inductive run_result :=
  | Waiting (ui : LauncherUI)       (* blocked in [get_wch], input used up *)
  | Launched (entry : DesktopEntry)
  | Cancelled
  | Raised.

(** [LauncherUI.run] on the characters [get_wch] delivers. *)
Fixpoint run (ui : LauncherUI) (input : list wch) : run_result :=
  match draw_cur ui with
  | None => Raised
  | Some _ =>
      match input with
      | [] => Waiting ui
      | ch :: input' =>
          match handle ui ch with
          | Continue ui' => run ui' input'
          | Launch entry => Launched entry
          | Cancel => Cancelled
          | IndexError => Raised
          end
      end
  end.

(** ** Terminal resolver, process launch, powerline layout, entry point *)

Definition TERMINAL_CANDIDATES : list str :=
  [lit "kitty"; lit "alacritty"; lit "st"; lit "xterm"; lit "urxvt";
   lit "gnome-terminal"; lit "konsole"].

(** The loop of [find_terminal] over the candidates left; [which] is
    [shutil.which].  [if p] fails on [None] and on the empty string. *)
Fixpoint find_terminal_in (which : str → option str) (candidates : list str) : option str :=
  match candidates with
  | [] => None
  | t :: candidates' =>
      match which t with
      | Some p => if bool_decide (p = []) then find_terminal_in which candidates' else Some p
      | None => find_terminal_in which candidates'
      end
  end.

Definition find_terminal (which : str → option str) : option str :=
  find_terminal_in which TERMINAL_CANDIDATES.

(** The characters [shlex.quote] leaves unquoted: [[\w@%+=:,./-]], ASCII. *)
Definition is_safe_char (c : ascii) : bool :=
  let n := ord c in
  ((97 <=? n) && (n <=? 122)) || ((65 <=? n) && (n <=? 90)) || ((48 <=? n) && (n <=? 57))
  || bool_decide (c ∈ ["_"; "@"; "%"; "+"; "="; ":"; ","; "."; "/"; "-"]%char).

(** [shlex.quote(s)]: a string with an unsafe character is put in single
    quotes, every single quote of it replaced by a closing quote, a
    double-quoted single quote and an opening quote. *)
Definition shlex_quote (s : str) : str :=
  if bool_decide (s = []) then lit "''"
  else if forallb is_safe_char s then s
  else
    ["'"%char]
    ++ (s ≫= λ c, if bool_decide (c = "'"%char)
                  then ["'"; "034"; "'"; "034"; "'"]%char else [c])
    ++ ["'"%char].

(** [detached_cmd] of [launch]. *)
Definition detached_cmd (raw_cmd : str) : str :=
  lit "setsid sh -c " ++ shlex_quote raw_cmd ++ lit " >/dev/null 2>&1 < /dev/null &".

Definition PREFER_TERMINAL_FOR_TERMINAL_ENTRIES : bool := true.

(** What a call of [launch] does: the argument lists it passes to
    [subprocess.Popen], in order, and whether it ends in an exception. *)
Record launch_trace := {
  popen_calls : list (list str);
  launch_raised : bool;
}.

(** The last [Popen] of a branch, outside every [try]. *)
Definition popen_direct (popen : list str → bool) (calls : list (list str)) (cmd : str)
    : launch_trace :=
  let args := [lit "sh"; lit "-c"; cmd] in
  {| popen_calls := calls ++ [args]; launch_raised := negb (popen args) |}.

(** [LauncherUI.launch(entry, in_terminal)].  [term] is [self.terminal];
    [popen args] tells whether [subprocess.Popen(args)] returns ([true]) or
    raises ([false]). *)
Definition launch (term : option str) (popen : list str → bool)
    (entry : DesktopEntry) (in_terminal : bool) : launch_trace :=
  let raw_cmd := strip (exec entry) in
  if bool_decide (raw_cmd = []) then {| popen_calls := []; launch_raised := false |}
  else
    let cmd := detached_cmd raw_cmd in
    if in_terminal || (terminal entry && PREFER_TERMINAL_FOR_TERMINAL_ENTRIES) then
      match term with
      | None => popen_direct popen [] cmd
      | Some t =>
          if bool_decide (t = []) then popen_direct popen [] cmd
          else
            let first := [t; lit "-e"; lit "sh"; lit "-c"; cmd] in
            let second := [t; lit "-e"; cmd] in
            if popen first then {| popen_calls := [first]; launch_raised := false |}
            else if popen second then
              {| popen_calls := [first; second]; launch_raised := false |}
            else popen_direct popen [first; second] cmd
      end
    else popen_direct popen [] cmd.

(** [s[:n]] *)
Definition slice_to (s : str) (n : Z) : str :=
  if 0 <=? n then take (Z.to_nat n) s else take (Z.to_nat (len s + n)) s.

(** [left] of [draw_powerline]. *)
Definition powerline_left : str := lit " hsd! ".

(** [sel_exec] of [draw_powerline] when it is drawn, on a screen of width
    [w]; [cur] is the selected entry, if the list is not empty. *)
Definition powerline_exec (cur : option DesktopEntry) (w : Z) : str :=
  let sel_exec :=
    match cur with
    | Some e => if bool_decide (exec e = []) then lit "-" else exec e
    | None => lit "-"
    end in
  let sel_exec := clean_text sel_exec in
  let right_space := Z.max 0 (w - (len powerline_left + 4)) in
  if right_space <? len sel_exec then
    if 4 <=? right_space then slice_to sel_exec (right_space - 3) ++ lit "..."
    else slice_to sel_exec right_space
  else sel_exec.

(** The column [rx] where [draw_powerline] puts [sel_exec]: with colours,
    and without. *)
Definition powerline_rx_colors (sel_exec : str) (w : Z) : Z :=
  let rx := Z.max (len powerline_left + 2) (w - len sel_exec - 2) in
  Z.min (Z.max 0 rx) (Z.max 0 (w - 1)).

Definition powerline_rx_plain (sel_exec : str) (w : Z) : Z :=
  Z.max 0 (w - (len sel_exec + 1)).



(** ** Notions of the specification *)

(** Greedy left-to-right matching, in the words of the specification: each
    character of the query is matched at its first occurrence after the
    previous match; the characters skipped before it are its gap.
    [greedy_match q t g]: [q] matches in [t] that way, the gaps summing to
    [g]. *)
Inductive greedy_match : str → str → nat → Prop :=
  | greedy_done t : greedy_match [] t 0
  | greedy_next ch q skipped rest g :
      ch ∉ skipped →
      greedy_match q rest g →
      greedy_match (ch :: q) (skipped ++ ch :: rest) (length skipped + g).

(** The scores of the four fields of a candidate. *)
Definition field_scores (q : str) (e : DesktopEntry) : list (option Z) :=
  [fuzzy_score q (name e); fuzzy_score q (comment e);
   fuzzy_score q (categories e); fuzzy_score q (exec e)].

(** [s] is the minimum of the field scores of [e] that are not [None]. *)
Definition is_min_score (q : str) (e : DesktopEntry) (s : Z) : Prop :=
  Some s ∈ field_scores q e ∧ ∀ s', Some s' ∈ field_scores q e → s <= s'.

(** At least one field of [e] matches. *)
Definition has_match (q : str) (e : DesktopEntry) : Prop :=
  Exists is_Some (field_scores q e).

#[global] Instance has_match_dec q e : Decision (has_match q e).
Proof. unfold has_match. apply _. Defined.

(** The sort key of a candidate that matches. *)
Definition entry_key (q : str) (e : DesktopEntry) : option (Z * str) :=
  best ← best_score q e; Some (best, lower (name e)).

(** The order of the ranked list: score ascending, then lowercased name
    ascending. *)
Definition rank_le (x y : DesktopEntry * Z) : Prop :=
  x.2 < y.2 ∨ (x.2 = y.2 ∧ str_lt (lower (name y.1)) (lower (name x.1)) = false).

(** The invariant of the selection state. *)
Definition selection_ok (ui : LauncherUI) : Prop :=
  (filtered ui ≠ [] → 0 <= selected ui < len (filtered ui)) ∧
  (filtered ui = [] → selected ui = 0).

(** [s] is empty or starts with a character that is no white space. *)
Definition head_ok (s : str) : Prop :=
  match s with
  | [] => True
  | c :: _ => isspace c = false
  end.

(** White space of [s] is the space character, one at a time. *)
Fixpoint single_spaced (s : str) : Prop :=
  match s with
  | [] => True
  | c :: s' => (isspace c = true → c = " "%char ∧ head_ok s') ∧ single_spaced s'
  end.

(** [s] has no white space at either end, and inside single spaces only. *)
Definition normalized (s : str) : Prop :=
  head_ok s ∧ head_ok (reverse s) ∧ single_spaced s.

(** The ranked list of [ui] is the one of its query. *)
Definition consistent (ui : LauncherUI) : Prop :=
  filtered ui = rank (strip (query ui)) (entries ui).

(** The bounds of the selected index that every event keeps. *)
Definition selection_bounds (ui : LauncherUI) : Prop :=
  -1 <= selected ui ∧ (filtered ui ≠ [] → selected ui < len (filtered ui)).

(** The value of the option [opt] of [sec], if there is one, is one of the
    words [getboolean] accepts. *)
Definition boolean_ok (sec : section) (opt : str) : Prop :=
  match sec !! lower opt with
  | None => True
  | Some value =>
      lower value ∈ [lit "1"; lit "yes"; lit "true"; lit "on";
                     lit "0"; lit "no"; lit "false"; lit "off"]
  end.

(** The entries that reach the duplicate test of [collect_desktop_entries],
    in scan order: the files of every directory, in the order of [paths]
    and of [glob], that parse and are not hidden. *)
Definition scanned (fs : FileSystem) (paths : list str) : list DesktopEntry :=
  filter (λ d, no_display d = false)
    (omap (λ p, parse_desktop_file p (fs_read fs p)) (paths ≫= fs_glob fs)).

(** The entries of [ds] whose name is neither in [seen] nor the name of an
    earlier entry of [ds]. *)
Fixpoint first_of_name (seen : gset str) (ds : list DesktopEntry) : list DesktopEntry :=
  match ds with
  | [] => []
  | d :: ds' =>
      if bool_decide (name d ∈ seen) then first_of_name seen ds'
      else d :: first_of_name ({[name d]} ∪ seen) ds'
  end.

(** ** Concrete inputs *)

(** A shortcut file whose launch command is a field code only. *)
Definition viewer_section : section :=
  list_to_map [(lit "name", lit "Viewer"); (lit "exec", lit "%U")].

Definition fs_viewer : FileSystem :=
  {| fs_glob base :=
       if bool_decide (base = lit "/usr/share/applications")
       then [lit "/usr/share/applications/viewer.desktop"] else [];
     fs_read p :=
       if bool_decide (p = lit "/usr/share/applications/viewer.desktop")
       then Some viewer_section else None |}.

(** Three directories, each with one shortcut file: the names in [/a] and
    [/b] differ in case only, the names in [/a] and [/c] are the same. *)
Definition fs_editors : FileSystem :=
  {| fs_glob base :=
       if bool_decide (base = lit "/a") then [lit "/a/editor.desktop"]
       else if bool_decide (base = lit "/b") then [lit "/b/editor.desktop"]
       else if bool_decide (base = lit "/c") then [lit "/c/editor.desktop"]
       else [];
     fs_read p :=
       if bool_decide (p = lit "/a/editor.desktop")
       then Some (list_to_map [(lit "name", lit "Editor"); (lit "exec", lit "vim")])
       else if bool_decide (p = lit "/b/editor.desktop")
       then Some (list_to_map [(lit "name", lit "editor"); (lit "exec", lit "nano")])
       else if bool_decide (p = lit "/c/editor.desktop")
       then Some (list_to_map [(lit "name", lit "Editor"); (lit "exec", lit "emacs")])
       else None |}.

Definition editor_a : DesktopEntry :=
  {| name := lit "Editor"; exec := lit "vim"; comment := []; terminal := false;
     path := lit "/a/editor.desktop"; no_display := false; categories := [] |}.

Definition editor_b : DesktopEntry :=
  {| name := lit "editor"; exec := lit "nano"; comment := []; terminal := false;
     path := lit "/b/editor.desktop"; no_display := false; categories := [] |}.

Definition editor_c : DesktopEntry :=
  {| name := lit "Editor"; exec := lit "emacs"; comment := []; terminal := false;
     path := lit "/c/editor.desktop"; no_display := false; categories := [] |}.

Definition named (n : string) : DesktopEntry :=
  {| name := lit n; exec := lit "run"; comment := []; terminal := false;
     path := []; no_display := false; categories := [] |}.

Definition firefox : DesktopEntry :=
  {| name := lit "Firefox"; exec := lit "firefox"; comment := []; terminal := false;
     path := lit "/usr/share/applications/firefox.desktop"; no_display := false;
     categories := [] |}.

(** The state after [z] is typed on the single candidate [firefox]:
    nothing matches. *)
Definition ui_no_match : LauncherUI :=
  update_filter (with_query (init [firefox]) (lit "z")).

(** * Properties *)

(** ** Strings *)





Lemma startswith_refl (t : str) : startswith t t = true.
Proof. induction t as [|c t IH]; simpl; [done|]. by rewrite bool_decide_eq_true_2. Qed.

Lemma startswith_spec (t q : str) : startswith t q = true ↔ ∃ rest, t = q ++ rest.
Proof.
  revert t. induction q as [|a q IH]; intros t; simpl.
  - split; [intros _; by exists t | done].
  - destruct t as [|b t].
    + split; [done | intros [rest Hr]; discriminate].
    + rewrite andb_true_iff, bool_decide_eq_true, IH. split.
      * intros [-> [rest ->]]. by exists rest.
      * intros [rest Hr]. injection Hr as -> ->. eauto.
Qed.


Lemma index_of_None (ch : ascii) (t : str) : index_of ch t = None ↔ ch ∉ t.
Proof.
  induction t as [|c t IH]; simpl.
  - split; [intros _; apply not_elem_of_nil | done].
  - rewrite not_elem_of_cons. case_bool_decide as Hc.
    + split; [done | intros [Hne _]; by destruct Hne].
    + rewrite fmap_None, IH. split; [intros ?; split; [congruence | done] | by intros [_ ?]].
Qed.

Lemma index_of_app (ch : ascii) (skipped rest : str) :
  ch ∉ skipped → index_of ch (skipped ++ ch :: rest) = Some (length skipped).
Proof.
  induction skipped as [|c sk IH]; simpl; intros Hn.
  - by rewrite bool_decide_eq_true_2.
  - apply not_elem_of_cons in Hn as [Hne Hn].
    rewrite bool_decide_eq_false_2 by congruence. by rewrite IH.
Qed.

Lemma index_of_Some (ch : ascii) (t : str) (k : nat) :
  index_of ch t = Some k →
  ∃ skipped rest, t = skipped ++ ch :: rest ∧ length skipped = k ∧ ch ∉ skipped.
Proof.
  revert k. induction t as [|c t IH]; simpl; intros k; [done|].
  case_bool_decide as Hc.
  - intros [= <-]. subst c. exists [], t. split_and!; [done | done | apply not_elem_of_nil].
  - destruct (index_of ch t) as [k'|] eqn:Hi; simpl; [|done].
    intros [= <-]. destruct (IH k' eq_refl) as (sk & rest & -> & <- & Hn).
    exists (c :: sk), rest. split_and!; [done | done |].
    apply not_elem_of_cons. split; [congruence | done].
Qed.

Lemma find_nat (t : str) (ch : ascii) (i : nat) :
  find t ch (Z.of_nat i) =
    match index_of ch (drop i t) with
    | Some k => Z.of_nat i + Z.of_nat k
    | None => -1
    end.
Proof.
  unfold find. destruct (Z.ltb_spec (Z.of_nat i) 0) as [?|_]; [lia|].
  by rewrite Nat2Z.id.
Qed.

Lemma drop_after (t : str) (i : nat) (skipped : str) (ch : ascii) (rest : str) :
  drop i t = skipped ++ ch :: rest → drop (i + length skipped + 1) t = rest.
Proof.
  intros H. rewrite <- Nat.add_assoc, <- drop_drop, H.
  by rewrite drop_app_add.
Qed.

(** ** Fuzzy scorer *)

Section score_loop.
Variable t : str.



(** The loop follows a greedy match and sums its gaps. *)
Lemma score_loop_greedy (q t' : str) (g : nat) :
  greedy_match q t' g →
  ∀ (i : nat) (s : Z), drop i t = t' → score_loop t q (Z.of_nat i) s = Some (s + Z.of_nat g).
Proof.
  induction 1 as [t'|ch q skipped rest g Hn _ IH]; intros i s Hd; simpl.
  - f_equal. lia.
  - rewrite find_nat, Hd, index_of_app by done.
    destruct (Z.eqb_spec (Z.of_nat i + Z.of_nat (length skipped)) (-1)) as [?|_]; [lia|].
    replace (Z.of_nat i + Z.of_nat (length skipped) + 1)
      with (Z.of_nat (i + length skipped + 1)) by lia.
    rewrite (IH _ _ (drop_after t i skipped ch rest Hd)). f_equal. lia.
Qed.

(** A loop that ends has found the query as a subsequence. *)
Lemma score_loop_sublist (q : str) (i : nat) (s r : Z) :
  score_loop t q (Z.of_nat i) s = Some r → sublist q (drop i t).
Proof.
  revert i s. induction q as [|ch q IH]; intros i s; simpl.
  - intros _. apply sublist_nil_l.
  - rewrite find_nat. destruct (index_of ch (drop i t)) as [k|] eqn:Hi; [|done].
    destruct (Z.eqb_spec (Z.of_nat i + Z.of_nat k) (-1)) as [?|_]; [lia|].
    apply index_of_Some in Hi as (skipped & rest & Hd & <- & _).
    replace (Z.of_nat i + Z.of_nat (length skipped) + 1)
      with (Z.of_nat (i + length skipped + 1)) by lia.
    intros Hl. apply IH in Hl. rewrite (drop_after t i skipped ch rest Hd) in Hl.
    rewrite Hd. apply sublist_inserts_l. by apply sublist_skip.
Qed.
End score_loop.

(** A subsequence has a greedy match. *)
Lemma sublist_greedy (q t : str) : sublist q t → ∃ g, greedy_match q t g.
Proof.
  revert t. induction q as [|ch q IH]; intros t Hs.
  - exists 0%nat. constructor.
  - destruct (index_of ch t) as [k|] eqn:Hi.
    + apply index_of_Some in Hi as (skipped & rest & -> & _ & Hn).
      assert (sublist q rest) as Hq.
      { clear IH. induction skipped as [|c sk IHs]; simpl in Hs.
        - apply sublist_cons_r in Hs as [Hs | (q' & [= <-] & Hs)]; [|done].
          apply sublist_cons_l in Hs as (k1 & k2 & -> & Hs).
          apply sublist_inserts_l. by apply sublist_cons.
        - apply not_elem_of_cons in Hn as [Hne Hn].
          apply sublist_cons_r in Hs as [Hs | (q' & [= ? ?] & Hs)]; [by apply IHs | congruence]. }
      destruct (IH _ Hq) as [g Hg]. exists (length skipped + g)%nat. by constructor.
    + apply index_of_None in Hi. destruct Hi.
      apply sublist_subseteq in Hs. apply Hs. left.
Qed.

Lemma greedy_match_functional (q t : str) (g g' : nat) :
  greedy_match q t g → greedy_match q t g' → g = g'.
Proof.
  intros H H'.
  pose proof (score_loop_greedy t q t g H 0%nat 0 eq_refl) as E.
  pose proof (score_loop_greedy t q t g' H' 0%nat 0 eq_refl) as E'.
  rewrite E in E'. injection E' as E'. lia.
Qed.


Lemma score_loop_greedy_0 (t q : str) (g : nat) :
  greedy_match q t g → score_loop t q 0 0 = Some (Z.of_nat g).
Proof. intros H. exact (score_loop_greedy t q t g H 0%nat 0 eq_refl). Qed.

Lemma score_loop_sublist_0 (t q : str) (r : Z) :
  score_loop t q 0 0 = Some r → sublist q t.
Proof. exact (score_loop_sublist t q 0%nat 0 r). Qed.

Lemma general_score_None (q t : str) :
  general_score q t = None ↔ score_loop t q 0 0 = None.
Proof. unfold general_score. destruct (score_loop t q 0 0); simpl; split; done. Qed.

Lemma fuzzy_score_startswith (q t : str) :
  startswith (lower t) (lower q) = true → fuzzy_score q t = Some 0.
Proof. unfold fuzzy_score. intros ->. by case_bool_decide. Qed.

(** C7: a text that starts with the query (case-insensitively), the query
    itself included, scores 0; so does every text for the empty query. *)
Theorem fuzzy_score_prefix_zero (q t : str) :
  (startswith (lower t) (lower q) = true → fuzzy_score q t = Some 0) ∧
  fuzzy_score q q = Some 0 ∧
  fuzzy_score [] t = Some 0.
Proof.
  split_and!.
  - apply fuzzy_score_startswith.
  - apply fuzzy_score_startswith, startswith_refl.
  - done.
Qed.

Lemma fuzzy_score_prefix_zero_witness :
  startswith (lower (lit "Firefox")) (lower (lit "fi")) = true ∧
  fuzzy_score (lit "fi") (lit "Firefox") = Some 0.
Proof.
  split; [reflexivity|].
  apply (proj1 (fuzzy_score_prefix_zero (lit "fi") (lit "Firefox"))). reflexivity.
Defined.








(** ** Stable sort *)

Section sort_by_facts.
Context {A K : Type} `{EqDecision K} (lt : K → K → bool) (key : A → K).
Hypothesis lt_irrefl : ∀ a, lt a a = false.
Hypothesis lt_asym : ∀ a b, lt a b = true → lt b a = false.
Hypothesis le_trans : ∀ a b c, lt b a = false → lt c b = false → lt c a = false.

Let le (x y : A) : Prop := lt (key y) (key x) = false.

Lemma insert_by_perm (x : A) (l : list A) : insert_by lt key x l ≡ₚ x :: l.
Proof.
  induction l as [|y l IH]; simpl; [done|].
  destruct (lt (key y) (key x)); [|done].
  rewrite IH. apply Permutation_swap.
Qed.

Lemma sort_by_perm (l : list A) : sort_by lt key l ≡ₚ l.
Proof.
  induction l as [|x l IH]; simpl; [done|].
  unfold sort_by in *. simpl. by rewrite insert_by_perm, IH.
Qed.

Lemma insert_by_sorted (x : A) (l : list A) :
  StronglySorted le l → StronglySorted le (insert_by lt key x l).
Proof.
  induction 1 as [|y l Hs IH Hy]; simpl.
  - repeat constructor.
  - destruct (lt (key y) (key x)) eqn:Hlt.
    + constructor; [done|].
      rewrite insert_by_perm. constructor; [|done].
      unfold le. by apply lt_asym.
    + constructor; [by constructor|].
      constructor; [done|].
      eapply Forall_impl; [exact Hy|]. intros z Hz. unfold le in *. eauto.
Qed.

Lemma sort_by_sorted (l : list A) : StronglySorted le (sort_by lt key l).
Proof.
  induction l as [|x l IH]; [constructor|].
  unfold sort_by in *. simpl. by apply insert_by_sorted.
Qed.

Lemma insert_by_filter_key (k : K) (x : A) (l : list A) :
  filter (λ y, key y = k) (insert_by lt key x l) = filter (λ y, key y = k) (x :: l).
Proof.
  induction l as [|y l IH]; simpl; [done|].
  destruct (lt (key y) (key x)) eqn:Hlt; [|done].
  rewrite !filter_cons in *.
  destruct (decide (key y = k)) as [Hy|Hy], (decide (key x = k)) as [Hx|Hx];
    rewrite IH; try done.
  rewrite Hy, Hx, lt_irrefl in Hlt. done.
Qed.

(** Stability: the elements of one key keep their order. *)
Lemma sort_by_filter_key (k : K) (l : list A) :
  filter (λ y, key y = k) (sort_by lt key l) = filter (λ y, key y = k) l.
Proof.
  induction l as [|x l IH]; [done|].
  unfold sort_by in *. simpl. rewrite insert_by_filter_key, !filter_cons.
  by rewrite IH.
Qed.
End sort_by_facts.

(** ** The order on sort keys *)

Lemma ord_inj (x y : ascii) : ord x = ord y → x = y.
Proof.
  unfold ord. intros H%Nat2Z.inj.
  by rewrite <- (ascii_nat_embedding x), <- (ascii_nat_embedding y), H.
Qed.

Lemma str_lt_irrefl (a : str) : str_lt a a = false.
Proof. induction a as [|x a IH]; simpl; [done|]. by rewrite bool_decide_eq_true_2. Qed.

Lemma str_lt_asym (a b : str) : str_lt a b = true → str_lt b a = false.
Proof.
  revert b. induction a as [|x a IH]; intros [|y b]; simpl; try done.
  repeat case_bool_decide; subst; try done; [apply IH|].
  rewrite Z.ltb_lt, Z.ltb_ge. lia.
Qed.

Lemma str_le_trans (a b c : str) :
  str_lt b a = false → str_lt c b = false → str_lt c a = false.
Proof.
  revert b c. induction a as [|x a IH]; intros [|y b] [|z c]; simpl; try done.
  repeat case_bool_decide; subst; try done; try apply IH;
    rewrite ?Z.ltb_ge; try lia.
  intros H1 H2. exfalso. match goal with Hne : _ ≠ _ |- _ => apply Hne end.
  apply ord_inj. lia.
Qed.

Lemma key_lt_irrefl (a : Z * str) : key_lt a a = false.
Proof. unfold key_lt. rewrite Z.eqb_refl. apply str_lt_irrefl. Qed.

Lemma key_lt_asym (a b : Z * str) : key_lt a b = true → key_lt b a = false.
Proof.
  unfold key_lt.
  destruct (Z.eqb_spec a.1 b.1) as [E|E], (Z.eqb_spec b.1 a.1) as [E'|E']; try congruence.
  - apply str_lt_asym.
  - rewrite Z.ltb_lt, Z.ltb_ge. lia.
Qed.

Lemma key_le_trans (a b c : Z * str) :
  key_lt b a = false → key_lt c b = false → key_lt c a = false.
Proof.
  unfold key_lt.
  destruct (Z.eqb_spec b.1 a.1), (Z.eqb_spec c.1 b.1), (Z.eqb_spec c.1 a.1);
    rewrite ?Z.ltb_ge; try lia; try done.
  apply str_le_trans.
Qed.

Lemma key_le_rank_le (x y : DesktopEntry * Z) :
  key_lt (rank_key y) (rank_key x) = false ↔ rank_le x y.
Proof.
  unfold key_lt, rank_le, rank_key. simpl.
  destruct (Z.eqb_spec y.2 x.2) as [E|E].
  - split; [intros H; right; by split | intros [?|[_ ?]]; [lia | done]].
  - rewrite Z.ltb_ge. split; [intros ?; left; lia | intros [?|[? _]]; lia].
Qed.

(** ** Filter/rank engine *)

Section best_score.
Variable q : str.

Lemma best_step_Some (b : option Z) (t : str) (s : Z) :
  best_step q b t = Some s → b = Some s ∨ fuzzy_score q t = Some s.
Proof.
  unfold best_step. destruct (fuzzy_score q t) as [s0|]; [|by left].
  destruct b as [b|]; [|by right]. destruct (s0 <? b); [by right | by left].
Qed.

Lemma best_step_le (b : option Z) (t : str) (s' : Z) :
  b = Some s' ∨ fuzzy_score q t = Some s' →
  ∃ s, best_step q b t = Some s ∧ s <= s'.
Proof.
  unfold best_step.
  destruct (fuzzy_score q t) as [s0|], b as [b|];
    try destruct (Z.ltb_spec s0 b); intros [Hs|Hs]; simplify_eq;
    eexists; (split; [reflexivity | lia]).
Qed.

Lemma best_step_None (b : option Z) (t : str) :
  best_step q b t = None → b = None ∧ fuzzy_score q t = None.
Proof.
  unfold best_step. destruct (fuzzy_score q t) as [s0|]; [|done].
  destruct b as [b|]; [|done]. by destruct (s0 <? b).
Qed.

Lemma best_fold_Some (ts : list str) (b : option Z) (s : Z) :
  foldl (best_step q) b ts = Some s →
  (b = Some s ∨ Some s ∈ fuzzy_score q <$> ts) ∧
  (∀ s', b = Some s' ∨ Some s' ∈ fuzzy_score q <$> ts → s <= s').
Proof.
  revert b. induction ts as [|t ts IH]; intros b; simpl.
  - intros ->. split; [by left|].
    intros s' [[= ->]|H%elem_of_nil]; [lia | done].
  - intros [Hin Hmin]%IH. split.
    + destruct Hin as [[?|Ht]%best_step_Some|?]; [by left | right | right; by right].
      rewrite <- Ht. left.
    + intros s' Hs'.
      assert ((b = Some s' ∨ fuzzy_score q t = Some s') ∨ Some s' ∈ fuzzy_score q <$> ts)
        as [Hb|Hr].
      { destruct Hs' as [?|[Ht|?]%elem_of_cons]; auto. }
      * destruct (best_step_le b t s' Hb) as (s0 & Hs0 & ?).
        specialize (Hmin s0 (or_introl Hs0)). lia.
      * apply Hmin. by right.
Qed.

Lemma best_fold_None (ts : list str) (b : option Z) :
  foldl (best_step q) b ts = None →
  b = None ∧ Forall (λ o, o = None) (fuzzy_score q <$> ts).
Proof.
  revert b. induction ts as [|t ts IH]; intros b; simpl; [by split|].
  intros [[-> Ht]%best_step_None Hts]%IH. split; [done | by constructor].
Qed.

Lemma best_score_Some (e : DesktopEntry) (s : Z) :
  best_score q e = Some s → is_min_score q e s.
Proof.
  intros [Hin Hmin]%best_fold_Some. split.
  - by destruct Hin.
  - intros s' Hs'. apply Hmin. by right.
Qed.

Lemma best_score_is_Some (e : DesktopEntry) :
  is_Some (best_score q e) ↔ has_match q e.
Proof.
  unfold has_match. split.
  - intros [s [Hin _]%best_score_Some].
    apply Exists_exists. by exists (Some s).
  - intros Hex. destruct (best_score q e) as [s|] eqn:E; [done|].
    apply best_fold_None in E as [_ Hall].
    apply Exists_exists in Hex as (o & Ho & Hs).
    rewrite Forall_forall in Hall. rewrite (Hall o Ho) in Hs. by destruct Hs.
Qed.

Lemma scored_cons (e : DesktopEntry) (es : list DesktopEntry) :
  scored q (e :: es) =
    match best_score q e with
    | Some s => (e, s) :: scored q es
    | None => scored q es
    end.
Proof. unfold scored. simpl. by destruct (best_score q e). Qed.

Lemma scored_fst (es : list DesktopEntry) :
  (scored q es).*1 = filter (has_match q) es.
Proof.
  induction es as [|e es IH]; [done|].
  rewrite scored_cons, filter_cons.
  pose proof (best_score_is_Some e) as Hm.
  destruct (best_score q e) as [s|].
  - rewrite decide_True by (by apply Hm). by rewrite fmap_cons, IH.
  - rewrite decide_False; [done|]. intros [? ?]%Hm. done.
Qed.

Lemma scored_elem (es : list DesktopEntry) (e : DesktopEntry) (s : Z) :
  (e, s) ∈ scored q es → e ∈ es ∧ best_score q e = Some s.
Proof.
  unfold scored. rewrite list_elem_of_omap. intros (e' & He & Hb).
  destruct (best_score q e') as [b|] eqn:E; simplify_eq/=. by split.
Qed.

Lemma scored_filter_key (k : Z * str) (es : list DesktopEntry) :
  (filter (λ x, rank_key x = k) (scored q es)).*1
  = filter (λ e, entry_key q e = Some k) es.
Proof.
  induction es as [|e es IH]; [done|].
  rewrite scored_cons, (filter_cons _ e).
  destruct (best_score q e) as [s|] eqn:E.
  - assert (entry_key q e = Some (s, lower (name e))) as Hk
      by (unfold entry_key; by rewrite E).
    rewrite filter_cons. unfold rank_key at 1. cbn [fst snd].
    destruct (decide ((s, lower (name e)) = k)) as [Hs|Hne].
    + rewrite decide_True by congruence. by rewrite fmap_cons, IH.
    + rewrite decide_False by congruence. by rewrite IH.
  - assert (entry_key q e = None) as Hk by (unfold entry_key; by rewrite E).
    rewrite decide_False by congruence. by rewrite IH.
Qed.
End best_score.

Lemma StronglySorted_weaken {A} (R S : A → A → Prop) (l : list A) :
  (∀ x y, R x y → S x y) → StronglySorted R l → StronglySorted S l.
Proof.
  intros HRS. induction 1 as [|x l _ IH Hx]; constructor; [done|].
  eapply Forall_impl; [exact Hx | auto].
Qed.

Lemma rank_perm (q : str) (C : list DesktopEntry) : rank q C ≡ₚ scored q C.
Proof. apply sort_by_perm. Qed.

(** C5: [rank q C] holds exactly the candidates of [C] with a matching
    field, each with the minimum of its field scores that are not [None],
    sorted by score and then by lowercased name, candidates of equal key in
    the order of [C]. *)
Theorem rank_spec (q : str) (C : list DesktopEntry) :
  (rank q C).*1 ≡ₚ filter (has_match q) C ∧
  (∀ e s, (e, s) ∈ rank q C → e ∈ C ∧ is_min_score q e s) ∧
  StronglySorted rank_le (rank q C) ∧
  (∀ k, (filter (λ x, rank_key x = k) (rank q C)).*1
        = filter (λ e, entry_key q e = Some k) C).
Proof.
  split_and!.
  - rewrite rank_perm. by rewrite scored_fst.
  - intros e s. rewrite rank_perm. intros [He Hb]%scored_elem.
    split; [done | by apply best_score_Some].
  - apply (StronglySorted_weaken
             (λ x y, key_lt (rank_key y) (rank_key x) = false)).
    + intros x y. apply key_le_rank_le.
    + apply sort_by_sorted; [apply key_lt_asym | apply key_le_trans].
  - intros k. unfold rank.
    rewrite (sort_by_filter_key key_lt rank_key key_lt_irrefl).
    apply scored_filter_key.
Qed.

Lemma rank_spec_witness : firefox ∈ [firefox] ∧ is_min_score (lit "fi") firefox 0.
Proof.
  destruct (rank_spec (lit "fi") [firefox]) as (_ & H & _).
  apply (H firefox 0). vm_compute. left.
Defined.

(** ** Stripping the query *)

Lemma lstrip_head_ok (s : str) : head_ok (lstrip s).
Proof.
  induction s as [|c s IH]; simpl; [done|].
  destruct (isspace c) eqn:E; [done | exact E].
Qed.

Lemma lstrip_id (s : str) : head_ok s → lstrip s = s.
Proof. destruct s as [|c s]; simpl; [done|]. by intros ->. Qed.

Lemma lstrip_suffix (s : str) : ∃ p, s = p ++ lstrip s.
Proof.
  induction s as [|c s [p IH]]; simpl; [by exists []|].
  destruct (isspace c); [|by exists []].
  exists (c :: p). simpl. by rewrite <- IH.
Qed.

Lemma head_ok_app_l (a b : str) : head_ok (a ++ b) → head_ok a.
Proof. by destruct a. Qed.

Lemma lstrip_spaces (s : str) : forallb isspace s = true → lstrip s = [].
Proof.
  induction s as [|c s IH]; simpl; [done|].
  intros [-> ?]%andb_true_iff. auto.
Qed.

Lemma strip_idemp (s : str) : strip (strip s) = strip s.
Proof.
  unfold strip, rstrip.
  set (u := lstrip s). set (v := lstrip (reverse u)).
  assert (head_ok (reverse v)) as Hv.
  { destruct (lstrip_suffix (reverse u)) as [p Hp]. fold v in Hp.
    apply (head_ok_app_l _ (reverse p)). rewrite <- reverse_app, <- Hp.
    rewrite reverse_involutive. apply lstrip_head_ok. }
  rewrite (lstrip_id (reverse v)) by done.
  rewrite reverse_involutive. by rewrite (lstrip_id v) by apply lstrip_head_ok.
Qed.

Lemma strip_spaces (s : str) : forallb isspace s = true → strip s = [].
Proof. intros H. unfold strip. by rewrite (lstrip_spaces s H). Qed.

Section sort_by_fmap.
Context {A B K K' : Type} (lt : K → K → bool) (key : A → K).
Context (lt' : K' → K' → bool) (key' : B → K') (f : A → B).
Hypothesis lt_f : ∀ x y, lt' (key' (f x)) (key' (f y)) = lt (key x) (key y).

Lemma insert_by_fmap (x : A) (l : list A) :
  insert_by lt' key' (f x) (f <$> l) = f <$> insert_by lt key x l.
Proof.
  induction l as [|y l IH]; [done|].
  rewrite fmap_cons. simpl. rewrite lt_f.
  destruct (lt (key y) (key x)); [|done]. by rewrite fmap_cons, IH.
Qed.

Lemma sort_by_fmap (l : list A) :
  sort_by lt' key' (f <$> l) = f <$> sort_by lt key l.
Proof.
  induction l as [|x l IH]; [done|].
  rewrite fmap_cons. unfold sort_by in *. simpl. by rewrite IH, insert_by_fmap.
Qed.
End sort_by_fmap.

Lemma scored_empty_query (es : list DesktopEntry) :
  scored [] es = (λ e, (e, 0)) <$> es.
Proof.
  induction es as [|e es IH]; [done|].
  rewrite scored_cons, fmap_cons, IH. reflexivity.
Qed.

Lemma rank_empty_query (es : list DesktopEntry) :
  rank [] es = (λ e, (e, 0)) <$> sort_by str_lt (λ e, lower (name e)) es.
Proof.
  unfold rank. rewrite scored_empty_query. by apply sort_by_fmap.
Qed.

(** C10: the ranked list that [update_filter] computes for a query is the
    one it computes for the stripped query; a query of white space only
    gives the list of the empty query, which is the full list in name
    order, every score 0. *)
Theorem update_filter_stripped (ui : LauncherUI) (q : str) :
  filtered (update_filter (with_query ui q))
    = filtered (update_filter (with_query ui (strip q))) ∧
  (forallb isspace q = true →
   filtered (update_filter (with_query ui q))
     = filtered (update_filter (with_query ui []))) ∧
  filtered (update_filter (with_query ui []))
    = (λ e, (e, 0)) <$> sort_by str_lt (λ e, lower (name e)) (entries ui).
Proof.
  split_and!; simpl.
  - by rewrite strip_idemp.
  - intros H. by rewrite (strip_spaces q H).
  - apply rank_empty_query.
Qed.

Lemma update_filter_stripped_witness :
  forallb isspace (lit "  ") = true ∧
  filtered (update_filter (with_query (init [firefox]) (lit "  "))) = [(firefox, 0)].
Proof.
  split; [reflexivity|].
  destruct (update_filter_stripped (init [firefox]) (lit "  ")) as (_ & H & H0).
  rewrite (H eq_refl), H0. reflexivity.
Defined.

(** ** Selection loop *)

Lemma len_nil_iff {A} (l : list A) : len l = 0 ↔ l = [].
Proof. unfold len. destruct l; simpl; split; (done || lia). Qed.

Lemma len_pos {A} (l : list A) : l ≠ [] → 0 < len l.
Proof. unfold len. destruct l; simpl; [done | lia]. Qed.

(** [update_filter] restores the invariant from any index that is not
    negative. *)
Lemma update_filter_selection_ok (ui : LauncherUI) :
  0 <= selected ui → selection_ok (update_filter ui).
Proof.
  intros Hs. unfold selection_ok, update_filter. simpl.
  set (f := rank (strip (query ui)) (entries ui)).
  destruct (Z.leb_spec (len f) (selected ui)); split.
  - intros ?%len_pos. lia.
  - intros ->%len_nil_iff. lia.
  - intros _. lia.
  - intros ?%len_nil_iff. lia.
Qed.

Lemma init_selection_ok (es : list DesktopEntry) : selection_ok (init es).
Proof. by apply update_filter_selection_ok. Qed.

Lemma selection_ok_nonneg (ui : LauncherUI) : selection_ok ui → 0 <= selected ui.
Proof.
  intros [Hne He]. destruct (filtered ui) as [|x f] eqn:E.
  - rewrite He by done. lia.
  - by apply Hne.
Qed.

(** Every event but page down on an empty list keeps the invariant. *)
Lemma handle_selection_ok (ui ui' : LauncherUI) (ch : wch) :
  selection_ok ui →
  ch ≠ WInt KEY_NPAGE ∨ filtered ui ≠ [] →
  handle ui ch = Continue ui' →
  selection_ok ui'.
Proof.
  intros Hok Hch. pose proof (selection_ok_nonneg ui Hok) as Hs.
  destruct Hok as [Hne He].
  assert (∀ i, (filtered ui ≠ [] → 0 <= i < len (filtered ui)) →
               (filtered ui = [] → i = 0) → selection_ok (with_selected ui i))
    as Hsel by (intros i ? ?; by split).
  destruct ch as [c|k]; simpl.
  - repeat case_bool_decide; try destruct (getitem _ _); try destruct (isprintable c);
      intros [= <-]; try done; by apply update_filter_selection_ok.
  - repeat case_bool_decide; intros [= <-]; try done;
      try (by apply update_filter_selection_ok); apply Hsel.
    + intros ?%Hne. lia.
    + intros ?%He. lia.
    + intros ?%Hne. lia.
    + intros E. rewrite (He E), E. done.
    + intros ?%Hne. lia.
    + intros E. subst k. by destruct Hch.
    + intros ?%Hne. lia.
    + intros ?%He. lia.
Qed.

Lemma draw_cur_selection_ok (ui : LauncherUI) : selection_ok ui → is_Some (draw_cur ui).
Proof.
  intros [Hne _]. unfold draw_cur. case_bool_decide as He; [done|].
  specialize (Hne He). unfold getitem.
  destruct (Z.leb_spec 0 (selected ui)) as [_|?]; [|lia].
  assert (is_Some (filtered ui !! Z.to_nat (selected ui))) as [x ->]; [|done].
  apply lookup_lt_is_Some_2. unfold len in Hne. lia.
Qed.

(** Without page down the loop keeps the invariant and raises nothing. *)
Lemma run_selection_ok (input : list wch) (ui : LauncherUI) :
  selection_ok ui → WInt KEY_NPAGE ∉ input →
  run ui input ≠ Raised ∧ ∀ ui', run ui input = Waiting ui' → selection_ok ui'.
Proof.
  revert ui. induction input as [|ch input IH]; intros ui Hok Hnp; cbn [run];
    destruct (draw_cur_selection_ok ui Hok) as [cur ->].
  - split; [done | by intros ui' [= <-]].
  - apply not_elem_of_cons in Hnp as [Hch Hnp].
    destruct (handle ui ch) as [ui1| | |] eqn:Hh; try done.
    + apply IH; [|done]. apply (handle_selection_ok ui ui1 ch); auto.
    + exfalso. destruct Hok as [Hne _]. destruct ch as [c|k]; simpl in Hh.
      * repeat case_bool_decide; try done.
        -- match goal with Hf : filtered ui ≠ [] |- _ => specialize (Hne Hf) end.
           assert (is_Some (getitem (filtered ui) (selected ui))) as [x Hx].
           { unfold getitem. destruct (Z.leb_spec 0 (selected ui)) as [_|?]; [|lia].
             apply lookup_lt_is_Some_2. unfold len in Hne. lia. }
           by rewrite Hx in Hh.
        -- by destruct (isprintable c).
      * repeat case_bool_decide; done.
Qed.

(** C9: confirm on an empty ranked list leaves the state as it is, launches
    nothing, and the loop goes on to the next event. *)
Theorem confirm_empty_noop (ui : LauncherUI) :
  filtered ui = [] →
  handle ui (WStr "010"%char) = Continue ui ∧
  draw_cur ui = Some None ∧
  ∀ input, run ui (WStr "010"%char :: input) = run ui input.
Proof.
  intros He.
  assert (handle ui (WStr "010"%char) = Continue ui) as Hh.
  { simpl. by rewrite (bool_decide_eq_true_2 _ He). }
  assert (draw_cur ui = Some None) as Hd.
  { unfold draw_cur. by rewrite (bool_decide_eq_true_2 _ He). }
  split_and!; [done | done |].
  intros input. cbn [run]. rewrite Hd, Hh. destruct input; cbn [run]; by rewrite Hd.
Qed.

Lemma confirm_empty_noop_witness :
  filtered ui_no_match = [] ∧
  handle ui_no_match (WStr "010"%char) = Continue ui_no_match.
Proof.
  split; [reflexivity|].
  apply (confirm_empty_noop ui_no_match). reflexivity.
Defined.

(** C1, at the failing input: on the single candidate [firefox], typing [z]
    empties the ranked list, and page down then sets the selected index to
    [-1]; the invariant is lost, and an erase that brings the candidate
    back leaves the index at [-1]. *)
Theorem page_down_on_empty_list :
  ∃ ui ui',
    run (init [firefox]) [WStr "z"%char; WInt KEY_NPAGE] = Waiting ui ∧
    filtered ui = [] ∧ selected ui = -1 ∧ ¬ selection_ok ui ∧
    run (init [firefox]) [WStr "z"%char; WInt KEY_NPAGE; WInt KEY_BACKSPACE] = Waiting ui' ∧
    filtered ui' = [(firefox, 0)] ∧ selected ui' = -1 ∧ ¬ selection_ok ui'.
Proof.
  eexists _, _. split_and!; try reflexivity.
  - intros [_ H]. specialize (H eq_refl). discriminate H.
  - intros [H _]. destruct H; [discriminate|]. vm_compute in *. congruence.
Qed.

(** ** Entry repository *)

Section collect.
Variable fs : FileSystem.

Lemma collect_dir_fold (st : gset str * list DesktopEntry) (paths : list str) :
  foldl (collect_dir fs) st paths = foldl (collect_file fs) st (paths ≫= fs_glob fs).
Proof.
  revert st. induction paths as [|base paths IH]; intros st; [done|].
  rewrite bind_cons, foldl_app. simpl. by rewrite IH.
Qed.

Lemma collect_file_fold (files : list str) (seen : gset str) (es : list DesktopEntry) :
  (foldl (collect_file fs) (seen, es) files).2
  = es ++ first_of_name seen
            (filter (λ d, no_display d = false)
               (omap (λ p, parse_desktop_file p (fs_read fs p)) files)).
Proof.
  revert seen es. induction files as [|p files IH]; intros seen es.
  - simpl. by rewrite app_nil_r.
  - cbn [foldl omap list_omap]. unfold collect_file at 2.
    destruct (parse_desktop_file p (fs_read fs p)) as [d|]; [|apply IH].
    rewrite filter_cons. destruct (no_display d) eqn:Hh.
    + rewrite decide_False by done. apply IH.
    + rewrite decide_True by done. cbn [first_of_name fst snd].
      case_bool_decide; [apply IH|].
      rewrite IH, <- app_assoc. done.
Qed.

Lemma collect_perm (paths : list str) :
  collect_desktop_entries fs paths ≡ₚ first_of_name ∅ (scanned fs paths).
Proof.
  unfold collect_desktop_entries. rewrite sort_by_perm.
  by rewrite collect_dir_fold, collect_file_fold.
Qed.
End collect.

Lemma first_of_name_elem (seen : gset str) (ds : list DesktopEntry) (d : DesktopEntry) :
  d ∈ first_of_name seen ds →
  (name d ∉ seen) ∧
  ∃ i, ds !! i = Some d ∧
       ∀ j d', (j < i)%nat → ds !! j = Some d' → name d' ≠ name d.
Proof.
  revert seen. induction ds as [|d0 ds IH]; intros seen; simpl.
  - by intros ?%elem_of_nil.
  - case_bool_decide as Hin.
    + intros Hd. destruct (IH _ Hd) as [Hn (i & Hi & Hfirst)]. split; [done|].
      exists (S i). split; [done|]. intros [|j] d' Hj; simpl.
      * intros [= <-] E. rewrite E in Hin. done.
      * apply Hfirst. lia.
    + intros [->|Hd]%elem_of_cons.
      * split; [done|]. exists 0%nat. split; [done|]. intros j d' Hj. lia.
      * destruct (IH _ Hd) as [Hn (i & Hi & Hfirst)].
        apply not_elem_of_union in Hn as [Hne%not_elem_of_singleton Hn].
        split; [done|].
        exists (S i). split; [done|]. intros [|j] d' Hj; simpl.
        -- intros [= <-] E. by destruct Hne.
        -- apply Hfirst. lia.
Qed.

Lemma first_of_name_NoDup (seen : gset str) (ds : list DesktopEntry) :
  NoDup (name <$> first_of_name seen ds).
Proof.
  revert seen. induction ds as [|d0 ds IH]; intros seen; simpl; [constructor|].
  case_bool_decide; [apply IH|].
  rewrite fmap_cons. constructor; [|apply IH].
  intros (d & E & Hd)%list_elem_of_fmap.
  apply first_of_name_elem in Hd as [Hn _].
  apply Hn, elem_of_union_l, elem_of_singleton. done.
Qed.

Lemma first_of_name_cover (seen : gset str) (ds : list DesktopEntry) (d : DesktopEntry) :
  d ∈ ds → name d ∉ seen →
  ∃ d', d' ∈ first_of_name seen ds ∧ name d' = name d.
Proof.
  revert seen. induction ds as [|d0 ds IH]; intros seen; simpl.
  - by intros ?%elem_of_nil.
  - intros [->|Hd]%elem_of_cons Hn.
    + rewrite bool_decide_eq_false_2 by done. exists d0. split; [left | done].
    + case_bool_decide; [by apply IH|].
      destruct (decide (name d = name d0)) as [E|E].
      * exists d0. split; [left | done].
      * destruct (IH ({[name d0]} ∪ seen) Hd) as (d' & Hd' & E').
        { apply not_elem_of_union. split; [by apply not_elem_of_singleton | done]. }
        exists d'. split; [by right | done].
Qed.

(** C3, as stated, fails: two shortcut files named [Editor] and [editor], in
    two directories of the search path, are both loaded. *)
Lemma collect_keeps_names_differing_in_case :
  scanned fs_editors [lit "/a"; lit "/b"] = [editor_a; editor_b] ∧
  lower (name editor_a) = lower (name editor_b) ∧
  collect_desktop_entries fs_editors [lit "/a"; lit "/b"] = [editor_a; editor_b].
Proof. split_and!; vm_compute; reflexivity. Qed.

(** C3, amended: the load deduplicates by the exact name.  The names of the
    loaded list are pairwise distinct; every loaded entry is the first of
    its name in scan order; every scanned name is loaded; so of two scanned
    entries of one name, the loaded entry of that name is scanned no later
    than the first of the two, and is the only loaded entry of that name. *)
Theorem collect_dedup_exact_name (fs : FileSystem) (paths : list str) :
  let L := collect_desktop_entries fs paths in
  let ds := scanned fs paths in
  NoDup (name <$> L) ∧
  (∀ d, d ∈ L →
     ∃ i, ds !! i = Some d ∧
          ∀ j d', (j < i)%nat → ds !! j = Some d' → name d' ≠ name d) ∧
  (∀ d, d ∈ ds → ∃ d', d' ∈ L ∧ name d' = name d) ∧
  (∀ i j a b, (i < j)%nat → ds !! i = Some a → ds !! j = Some b → name a = name b →
     ∃ k d, (k <= i)%nat ∧ ds !! k = Some d ∧ d ∈ L ∧ name d = name a ∧
            ∀ d', d' ∈ L → name d' = name a → d' = d).
Proof.
  intros L ds.
  assert (NoDup (name <$> L)) as Hnd.
  { unfold L. rewrite collect_perm. apply first_of_name_NoDup. }
  assert (∀ d, d ∈ L →
     ∃ i, ds !! i = Some d ∧
          ∀ j d', (j < i)%nat → ds !! j = Some d' → name d' ≠ name d) as Hfirst.
  { intros d. unfold L. rewrite collect_perm. intros Hd.
    by apply first_of_name_elem in Hd as [_ ?]. }
  assert (∀ d, d ∈ ds → ∃ d', d' ∈ L ∧ name d' = name d) as Hcover.
  { intros d Hd. unfold L. setoid_rewrite collect_perm.
    apply first_of_name_cover; [done | apply not_elem_of_empty]. }
  split_and!; [done | done | done |].
  intros i j a b Hij Ha Hb Hab.
  destruct (Hcover a) as (d & Hd & Hda); [by eapply list_elem_of_lookup_2|].
  destruct (Hfirst d Hd) as (k & Hk & Hkfirst).
  exists k, d. split_and!; try done.
  - destruct (le_lt_dec k i) as [?|Hlt]; [done|].
    destruct (Hkfirst i a Hlt Ha). done.
  - intros d' Hd' Hda'.
    apply list_elem_of_lookup in Hd as [n Hn], Hd' as [n' Hn'].
    assert (n' = n) as ->.
    { apply (NoDup_lookup (name <$> L) n' n (name a)); [done | |].
      - by rewrite list_lookup_fmap, Hn', <- Hda'.
      - by rewrite list_lookup_fmap, Hn, <- Hda. }
    congruence.
Qed.

Lemma collect_dedup_exact_name_witness :
  ∃ k d, (k <= 0)%nat ∧
    scanned fs_editors [lit "/a"; lit "/b"; lit "/c"] !! k = Some d ∧
    d ∈ collect_desktop_entries fs_editors [lit "/a"; lit "/b"; lit "/c"] ∧
    name d = name editor_a ∧
    ∀ d', d' ∈ collect_desktop_entries fs_editors [lit "/a"; lit "/b"; lit "/c"] →
          name d' = name editor_a → d' = d.
Proof.
  destruct (collect_dedup_exact_name fs_editors [lit "/a"; lit "/b"; lit "/c"])
    as (_ & _ & _ & H).
  apply (H 0%nat 2%nat editor_a editor_c); [lia | reflexivity | reflexivity | reflexivity].
Defined.

(** The launch command of a loaded entry is the sanitized [Exec] value, and
    it is the raw value, not the sanitized one, that is not empty. *)
Lemma parse_desktop_file_exec (p : str) (file : option section) (d : DesktopEntry) :
  parse_desktop_file p file = Some d →
  ∃ sec, file = Some sec ∧ sec_get sec (lit "Exec") [] ≠ [] ∧
         exec d = sanitize_exec_field (sec_get sec (lit "Exec") []).
Proof.
  unfold parse_desktop_file. destruct file as [sec|]; [|done].
  cbn [mbind option_bind].
  destruct (sec_getboolean sec (lit "NoDisplay") false); [|done].
  cbn [mbind option_bind].
  case_bool_decide as He; [done|].
  destruct (sec_getboolean sec (lit "Terminal") false); [|done].
  cbn [mbind option_bind].
  intros [= <-]. by exists sec.
Qed.

(** C2, at the failing input: a shortcut file whose [Exec] value is the
    field code [%U] passes the test of the raw value, is sanitized to the
    empty string, and is loaded with an empty launch command. *)
Theorem load_accepts_empty_exec :
  ∃ d,
    parse_desktop_file (lit "/usr/share/applications/viewer.desktop")
      (Some viewer_section) = Some d ∧
    collect_desktop_entries fs_viewer [lit "/usr/share/applications"] = [d] ∧
    sec_get viewer_section (lit "Exec") [] = lit "%U" ∧
    exec d = [].
Proof. eexists. split_and!; vm_compute; reflexivity. Qed.

(** ** Scenarios of the specification *)

Example fuzzy_score_fi_firefox : fuzzy_score (lit "fi") (lit "Firefox") = Some 0.
Proof. reflexivity. Qed.

Example fuzzy_score_fx_firefox : fuzzy_score (lit "FX") (lit "Firefox") = Some 10.
Proof. reflexivity. Qed.

Example fuzzy_score_f_terminal : fuzzy_score (lit "f") (lit "Terminal") = None.
Proof. reflexivity. Qed.

Example rank_fi :
  rank (lit "fi") [named "Firefox"; named "Files"; named "Terminal"]
  = [(named "Files", 0); (named "Firefox", 0)].
Proof. vm_compute. reflexivity. Qed.

Example rank_empty :
  (rank [] [named "Terminal"; named "firefox"; named "Files"]).*1
  = [named "Files"; named "firefox"; named "Terminal"].
Proof. vm_compute. reflexivity. Qed.

Example sanitize_exec_field_codes :
  sanitize_exec_field (lit "vim  %F  -x ") = lit "vim -x".
Proof. reflexivity. Qed.

Example collect_same_name :
  collect_desktop_entries fs_editors [lit "/a"; lit "/c"] = [editor_a].
Proof. vm_compute. reflexivity. Qed.

(** * Further properties of the code *)

(** ** Fuzzy scorer: matches, bounds, best tier *)

Lemma startswith_sublist (t q : str) : startswith t q = true → sublist q t.
Proof.
  intros [rest ->]%startswith_spec. by apply sublist_inserts_r.
Qed.




(** X1: the scorer returns no match exactly when the query is no
    case-insensitive subsequence of the text. *)
Theorem fuzzy_score_None_iff (q t : str) :
  fuzzy_score q t = None ↔ ¬ sublist (lower q) (lower t).
Proof.
  unfold fuzzy_score. case_bool_decide as Hq.
  - rewrite Hq. split; [done | intros H; destruct H; apply sublist_nil_l].
  - destruct (startswith (lower t) (lower q)) eqn:Hp.
    + split; [done | intros H; destruct H; by apply startswith_sublist].
    + rewrite general_score_None. split.
      * intros E Hs. destruct (sublist_greedy _ _ Hs) as [g Hg].
        by rewrite (score_loop_greedy_0 _ _ g Hg) in E.
      * intros Hn. destruct (score_loop (lower t) (lower q) 0 0) as [r|] eqn:E; [|done].
        destruct Hn. by apply (score_loop_sublist_0 _ _ r).
Qed.





(** ** Sanitizing the launch command and the comment *)

Lemma sub_spaces_from_single (b : bool) (s : str) :
  single_spaced (sub_spaces_from b s) ∧ (b = true → head_ok (sub_spaces_from b s)).
Proof.
  revert b. induction s as [|c s IH]; intros b; simpl; [done|].
  destruct (isspace c) eqn:Hc.
  - destruct b.
    + apply IH.
    + destruct (IH true) as [Hs Hh]. simpl. split; [|done].
      split; [|done]. intros _. split; [done | by apply Hh].
  - destruct (IH false) as [Hs _]. simpl. split; [|done].
    split; [|done]. intros E. congruence.
Qed.

Lemma single_spaced_app (a b : str) :
  single_spaced (a ++ b) → single_spaced a ∧ single_spaced b.
Proof.
  induction a as [|c a IH]; simpl; [done|].
  intros [Hc [Ha Hb]%IH]. split; [|done]. split; [|done].
  intros [-> Hh]%Hc. split; [done | by apply head_ok_app_l in Hh].
Qed.

Lemma rstrip_prefix (s : str) : ∃ r, s = rstrip s ++ r.
Proof.
  unfold rstrip. destruct (lstrip_suffix (reverse s)) as [p Hp].
  exists (reverse p). rewrite <- reverse_app, <- Hp. by rewrite reverse_involutive.
Qed.

Lemma strip_infix (s : str) : ∃ p r, s = p ++ strip s ++ r.
Proof.
  unfold strip. destruct (lstrip_suffix s) as [p Hp].
  destruct (rstrip_prefix (lstrip s)) as [r Hr].
  exists p, r. by rewrite <- Hr.
Qed.

Lemma strip_head_ok (s : str) : head_ok (strip s) ∧ head_ok (reverse (strip s)).
Proof.
  unfold strip. split.
  - destruct (rstrip_prefix (lstrip s)) as [r Hr].
    apply (head_ok_app_l _ r). rewrite <- Hr. apply lstrip_head_ok.
  - unfold rstrip. rewrite reverse_involutive. apply lstrip_head_ok.
Qed.

Lemma strip_id (s : str) : head_ok s → head_ok (reverse s) → strip s = s.
Proof.
  intros Hh Hr. unfold strip, rstrip.
  by rewrite (lstrip_id s Hh), (lstrip_id _ Hr), reverse_involutive.
Qed.

Lemma strip_normalized (s : str) : single_spaced s → normalized (strip s).
Proof.
  intros Hs. destruct (strip_head_ok s) as [Hh Hr]. split_and!; [done | done |].
  destruct (strip_infix s) as (p & r & E). rewrite E in Hs.
  apply single_spaced_app in Hs as [_ Hs]. by apply single_spaced_app in Hs as [Hs _].
Qed.

Lemma sub_spaces_from_id (s : str) :
  single_spaced s →
  sub_spaces_from false s = s ∧ (head_ok s → sub_spaces_from true s = s).
Proof.
  induction s as [|c s IH]; simpl; [done|].
  intros [Hc [IHf IHt]%IH]. destruct (isspace c) eqn:E.
  - destruct (Hc eq_refl) as [-> Hh]. split; [by rewrite IHt | done].
  - rewrite IHf. done.
Qed.

Lemma normalized_fixed (s : str) : normalized s → strip (sub_spaces s) = s.
Proof.
  intros (Hh & Hr & Hs). unfold sub_spaces.
  destruct (sub_spaces_from_id s Hs) as [-> _]. by apply strip_id.
Qed.

Lemma sub_field_codes_id (s : str) : "%"%char ∉ s → sub_field_codes s = s.
Proof.
  induction s as [|c s IH]; [done|].
  intros [Hc Hs]%not_elem_of_cons. specialize (IH Hs).
  destruct s as [|d s]; [done|].
  change (sub_field_codes (c :: d :: s))
    with (if bool_decide (c = "%"%char) && is_field_code d
          then sub_field_codes s else c :: sub_field_codes (d :: s)).
  rewrite bool_decide_eq_false_2 by congruence. by rewrite IH.
Qed.

(** X4: a sanitized launch command has no white space at either end, and
    inside it only single space characters. *)
Theorem sanitize_exec_field_normalized (exec_field : str) :
  normalized (sanitize_exec_field exec_field).
Proof.
  unfold sanitize_exec_field. apply strip_normalized, sub_spaces_from_single.
Qed.

(** X5: a command without field codes whose white space is already in that
    form is left as it is. *)
Theorem sanitize_exec_field_fixed (s : str) :
  normalized s → "%"%char ∉ s → sanitize_exec_field s = s.
Proof.
  intros Hn Hp. unfold sanitize_exec_field.
  rewrite (sub_field_codes_id s Hp). by apply normalized_fixed.
Qed.

Lemma sanitize_exec_field_fixed_witness :
  sanitize_exec_field (lit "vim -x /tmp/a b") = lit "vim -x /tmp/a b".
Proof.
  apply (sanitize_exec_field_fixed (lit "vim -x /tmp/a b")).
  - split_and!; [reflexivity | reflexivity |].
    repeat (split; [intros E; vm_compute in E; try discriminate E; split; reflexivity|]).
    exact I.
  - refine (bool_decide_unpack _ _). vm_compute. exact I.
Defined.

Lemma Forall_sub_spaces_from (P : ascii → Prop) (b : bool) (s : str) :
  P " "%char → Forall P s → Forall P (sub_spaces_from b s).
Proof.
  intros Hsp Hs. revert b. induction Hs as [|c s Hc _ IH]; intros b; simpl; [done|].
  destruct (isspace c); [destruct b|]; auto.
Qed.

Lemma Forall_strip (P : ascii → Prop) (s : str) : Forall P s → Forall P (strip s).
Proof.
  destruct (strip_infix s) as (p & r & E). rewrite E at 1.
  intros [_ [H _]%Forall_app]%Forall_app. done.
Qed.

Lemma clean_text_printable (s : str) :
  Forall (λ c, isprintable c = true) (clean_text s).
Proof.
  unfold clean_text. case_bool_decide; [constructor|].
  apply Forall_strip, Forall_sub_spaces_from; [reflexivity|].
  apply Forall_forall. by intros c [? _]%list_elem_of_filter.
Qed.

Lemma clean_text_normalized (s : str) : normalized (clean_text s).
Proof.
  unfold clean_text. case_bool_decide; [done|].
  apply strip_normalized, sub_spaces_from_single.
Qed.

Lemma filter_printable_id (s : str) :
  Forall (λ c, isprintable c = true) s → filter (λ ch, isprintable ch = true) s = s.
Proof.
  unfold str in *. induction 1 as [|c s Hc _ IH]; [done|].
  rewrite filter_cons, decide_True by done. by rewrite IH.
Qed.

(** X6: cleaned text holds printable characters only, has no white space
    at either end and single spaces inside; cleaning it again changes
    nothing. *)
Theorem clean_text_idemp (s : str) :
  Forall (λ c, isprintable c = true) (clean_text s) ∧
  normalized (clean_text s) ∧
  clean_text (clean_text s) = clean_text s.
Proof.
  pose proof (clean_text_printable s) as Hp. pose proof (clean_text_normalized s) as Hn.
  split_and!; [done | done |].
  set (r := clean_text s) in *. unfold clean_text at 1.
  case_bool_decide as Hr; [done|].
  rewrite (filter_printable_id r Hp). by apply normalized_fixed.
Qed.

(** ** Parsing a shortcut file *)

Lemma convert_to_boolean_is_Some (value : str) :
  is_Some (convert_to_boolean value) ↔
  lower value ∈ [lit "1"; lit "yes"; lit "true"; lit "on";
                 lit "0"; lit "no"; lit "false"; lit "off"].
Proof.
  unfold convert_to_boolean.
  change [lit "1"; lit "yes"; lit "true"; lit "on"; lit "0"; lit "no"; lit "false"; lit "off"]
    with ([lit "1"; lit "yes"; lit "true"; lit "on"]
          ++ [lit "0"; lit "no"; lit "false"; lit "off"]).
  rewrite elem_of_app. repeat case_bool_decide; split; eauto.
  - intros [? [=]].
  - intros [?|?]; done.
Qed.

Lemma sec_getboolean_is_Some (sec : section) (opt : str) (fallback : bool) :
  is_Some (sec_getboolean sec opt fallback) ↔ boolean_ok sec opt.
Proof.
  unfold sec_getboolean, boolean_ok. destruct (sec !! lower opt) as [v|].
  - apply convert_to_boolean_is_Some.
  - split; eauto.
Qed.

Lemma sec_get_exec (sec : section) :
  sec_get sec (lit "Exec") [] ≠ [] ↔ ∃ v, sec !! lit "exec" = Some v ∧ v ≠ [].
Proof.
  unfold sec_get. change (lower (lit "Exec")) with (lit "exec").
  destruct (sec !! lit "exec") as [v|]; simpl.
  - split; [by exists v | by intros (? & [= <-] & ?)].
  - split; [done | by intros (? & ? & _)].
Qed.

Lemma parse_section_is_Some (p : str) (sec : section) :
  is_Some (parse_desktop_file p (Some sec)) ↔
  is_Some (sec_getboolean sec (lit "NoDisplay") false) ∧
  is_Some (sec_getboolean sec (lit "Terminal") false) ∧
  sec_get sec (lit "Exec") [] ≠ [].
Proof.
  unfold parse_desktop_file. cbn [mbind option_bind].
  destruct (sec_getboolean sec (lit "NoDisplay") false) as [nd|];
    cbn [mbind option_bind].
  2: { split; [by intros [? ?] | by intros ([? ?] & _)]. }
  case_bool_decide as He.
  { split; [by intros [? ?] | by intros (_ & _ & ?)]. }
  destruct (sec_getboolean sec (lit "Terminal") false) as [tm|];
    cbn [mbind option_bind].
  - split; [by eauto | by eauto].
  - split; [by intros [? ?] | by intros (_ & [? ?] & _)].
Qed.

(** X7: a shortcut file is rejected exactly when it cannot be read or has
    no section, when [NoDisplay] or [Terminal] holds a word that is no
    boolean, or when [Exec] is missing or empty. *)
Theorem parse_desktop_file_is_Some (p : str) (file : option section) :
  is_Some (parse_desktop_file p file) ↔
  ∃ sec, file = Some sec ∧
         boolean_ok sec (lit "NoDisplay") ∧ boolean_ok sec (lit "Terminal") ∧
         ∃ v, sec !! lit "exec" = Some v ∧ v ≠ [].
Proof.
  destruct file as [sec|].
  - rewrite parse_section_is_Some, !sec_getboolean_is_Some, sec_get_exec. split.
    + intros (? & ? & ?). by exists sec.
    + by intros (? & [= <-] & ? & ? & ?).
  - split; [by intros [? ?] | by intros (? & ? & _)].
Qed.

Lemma parse_desktop_file_path (p : str) (file : option section) (d : DesktopEntry) :
  parse_desktop_file p file = Some d → path d = p.
Proof.
  unfold parse_desktop_file. destruct file as [sec|]; [|done].
  cbn [mbind option_bind].
  destruct (sec_getboolean sec (lit "NoDisplay") false); [|done].
  cbn [mbind option_bind].
  case_bool_decide as He; [done|].
  destruct (sec_getboolean sec (lit "Terminal") false); [|done].
  cbn [mbind option_bind]. by intros [= <-].
Qed.

(** X8: a parsed entry keeps the path it was read from; its launch command
    and its comment have no white space at either end and single spaces
    inside, and its comment holds printable characters only. *)
Theorem parse_desktop_file_fields (p : str) (file : option section) (d : DesktopEntry) :
  parse_desktop_file p file = Some d →
  path d = p ∧ normalized (exec d) ∧ normalized (comment d) ∧
  Forall (λ c, isprintable c = true) (comment d).
Proof.
  unfold parse_desktop_file. destruct file as [sec|]; [|done].
  cbn [mbind option_bind].
  destruct (sec_getboolean sec (lit "NoDisplay") false); [|done].
  cbn [mbind option_bind].
  case_bool_decide as He; [done|].
  destruct (sec_getboolean sec (lit "Terminal") false); [|done].
  cbn [mbind option_bind].
  intros [= <-]. cbn [path exec comment]. split_and!.
  - done.
  - unfold sanitize_exec_field. apply strip_normalized, sub_spaces_from_single.
  - apply clean_text_normalized.
  - apply clean_text_printable.
Qed.

Lemma parse_desktop_file_fields_witness :
  normalized (lit "vim -x") ∧ normalized [].
Proof.
  destruct (parse_desktop_file_fields (lit "/a/vim.desktop")
              (Some (list_to_map [(lit "exec", lit " vim   %F -x ")]))
              {| name := lit "vim"; exec := lit "vim -x"; comment := [];
                 terminal := false; path := lit "/a/vim.desktop"; no_display := false;
                 categories := [] |}) as (_ & He & Hc & _); [reflexivity|].
  split; [exact He | exact Hc].
Defined.

Lemma rindex_of_None (ch : ascii) (t : str) : ch ∉ t → rindex_of ch t = None.
Proof.
  induction t as [|c t IH]; [done|].
  intros [Hc Ht]%not_elem_of_cons. simpl. rewrite (IH Ht).
  by rewrite bool_decide_eq_false_2 by congruence.
Qed.

Lemma rindex_of_app (ch : ascii) (a b : str) :
  ch ∉ b → rindex_of ch (a ++ ch :: b) = Some (length a).
Proof.
  intros Hb. induction a as [|c a IH]; simpl.
  - by rewrite (rindex_of_None ch b Hb), bool_decide_eq_true_2.
  - by rewrite IH.
Qed.

Lemma basename_app (dir b : str) :
  "/"%char ∉ b → basename (dir ++ "/"%char :: b) = b.
Proof.
  intros Hb. unfold basename. rewrite (rindex_of_app _ dir b Hb).
  change (dir ++ "/"%char :: b) with (dir ++ ["/"%char] ++ b).
  rewrite app_assoc. apply drop_app_length'. rewrite length_app. simpl. lia.
Qed.

Lemma splitext_root_desktop (stem : str) :
  (∃ c, c ∈ stem ∧ c ≠ "."%char) → splitext_root (stem ++ lit ".desktop") = stem.
Proof.
  intros (c & Hc & Hne). unfold splitext_root.
  change (lit ".desktop") with ("."%char :: lit "desktop").
  rewrite rindex_of_app.
  2: { refine (bool_decide_unpack _ _). vm_compute. exact I. }
  rewrite take_app_length.
  destruct (forallb _ stem) eqn:E; [|done].
  rewrite forallb_forall in E. apply list_elem_of_In, E in Hc.
  by apply bool_decide_eq_true in Hc.
Qed.

(** X9: a shortcut file without a [Name] is named after its file: the base
    name of its path without the [.desktop] suffix. *)
Theorem parse_desktop_file_name_fallback
    (dir stem : str) (sec : section) (d : DesktopEntry) :
  "/"%char ∉ stem → (∃ c, c ∈ stem ∧ c ≠ "."%char) →
  sec !! lit "name" = None →
  parse_desktop_file (dir ++ "/"%char :: stem ++ lit ".desktop") (Some sec) = Some d →
  name d = stem.
Proof.
  intros Hs Hdot Hn. unfold parse_desktop_file. cbn [mbind option_bind].
  destruct (sec_getboolean sec (lit "NoDisplay") false); [|done].
  cbn [mbind option_bind].
  case_bool_decide as He; [done|].
  destruct (sec_getboolean sec (lit "Terminal") false); [|done].
  cbn [mbind option_bind].
  intros [= <-]. cbn [name]. unfold sec_get.
  change (default (splitext_root (basename (dir ++ "/"%char :: stem ++ lit ".desktop")))
            (sec !! lit "name") = stem).
  rewrite Hn. cbn [default].
  rewrite basename_app; [by apply splitext_root_desktop|].
  apply not_elem_of_app. split; [done|].
  refine (bool_decide_unpack _ _). vm_compute. exact I.
Qed.

Lemma parse_desktop_file_name_fallback_witness :
  name {| name := lit "org.gnome.Calc"; exec := lit "calc"; comment := [];
          terminal := false; path := lit "/usr/share/applications/org.gnome.Calc.desktop";
          no_display := false; categories := [] |} = lit "org.gnome.Calc".
Proof.
  apply (parse_desktop_file_name_fallback (lit "/usr/share/applications")
           (lit "org.gnome.Calc") (list_to_map [(lit "exec", lit "calc")])).
  - refine (bool_decide_unpack _ _). vm_compute. exact I.
  - exists "o"%char. split; [left | discriminate].
  - reflexivity.
  - reflexivity.
Defined.

(** ** Loading the repository *)

Lemma collect_eq (fs : FileSystem) (paths : list str) :
  collect_desktop_entries fs paths
  = sort_by str_lt (λ x, lower (name x)) (first_of_name ∅ (scanned fs paths)).
Proof.
  unfold collect_desktop_entries. by rewrite collect_dir_fold, collect_file_fold.
Qed.

Lemma scanned_app (fs : FileSystem) (l1 l2 : list str) :
  scanned fs (l1 ++ l2) = scanned fs l1 ++ scanned fs l2.
Proof. unfold scanned. by rewrite bind_app, omap_app, filter_app. Qed.

Lemma scanned_elem (fs : FileSystem) (paths : list str) (d : DesktopEntry) :
  d ∈ scanned fs paths ↔
  no_display d = false ∧
  ∃ base p, base ∈ paths ∧ p ∈ fs_glob fs base ∧
            parse_desktop_file p (fs_read fs p) = Some d.
Proof.
  unfold scanned. rewrite list_elem_of_filter, list_elem_of_omap.
  setoid_rewrite list_elem_of_bind. split.
  - intros (? & p & (base & ? & ?) & ?). split; [done|]. by exists base, p.
  - intros (? & base & p & ? & ? & ?). split; [done|]. exists p. split; [|done].
    by exists base.
Qed.

Lemma first_of_name_subseteq (seen : gset str) (ds : list DesktopEntry) (d : DesktopEntry) :
  d ∈ first_of_name seen ds → d ∈ ds.
Proof.
  intros (_ & i & Hi & _)%first_of_name_elem. by apply list_elem_of_lookup_2 in Hi.
Qed.

Lemma first_of_name_seen (seen : gset str) (ds : list DesktopEntry) :
  (∀ d, d ∈ ds → name d ∈ seen) → first_of_name seen ds = [].
Proof.
  induction ds as [|d0 ds IH]; [done|]. intros H. simpl.
  rewrite bool_decide_eq_true_2 by (apply H; left).
  apply IH. intros d Hd. apply H. by right.
Qed.

Lemma first_of_name_app_covered (seen : gset str) (ds ds' : list DesktopEntry) :
  (∀ d, d ∈ ds' → name d ∈ seen ∨ name d ∈ name <$> ds) →
  first_of_name seen (ds ++ ds') = first_of_name seen ds.
Proof.
  revert seen. induction ds as [|d0 ds IH]; intros seen H; simpl.
  - apply first_of_name_seen. intros d Hd.
    destruct (H d Hd) as [?|?%elem_of_nil]; done.
  - case_bool_decide as Hin.
    + apply IH. intros d Hd. destruct (H d Hd) as [?|Hn]; [by left|].
      rewrite fmap_cons in Hn. apply elem_of_cons in Hn as [->|?]; [by left | by right].
    + f_equal. apply IH. intros d Hd. destruct (H d Hd) as [?|Hn].
      * left. by apply elem_of_union_r.
      * rewrite fmap_cons in Hn. apply elem_of_cons in Hn as [->|?]; [|by right].
        left. by apply elem_of_union_l, elem_of_singleton.
Qed.

(** X10: the loaded list is in ascending order of the lowercased names. *)
Theorem collect_sorted (fs : FileSystem) (paths : list str) :
  StronglySorted (λ a b, str_lt (lower (name b)) (lower (name a)) = false)
    (collect_desktop_entries fs paths).
Proof.
  unfold collect_desktop_entries.
  apply (sort_by_sorted str_lt (λ x, lower (name x))); [apply str_lt_asym | apply str_le_trans].
Qed.

(** X11: every loaded entry is not hidden and is the parse of a file that
    [glob] lists in one of the directories of the path, whose path it
    keeps. *)
Theorem collect_provenance (fs : FileSystem) (paths : list str) (d : DesktopEntry) :
  d ∈ collect_desktop_entries fs paths →
  no_display d = false ∧
  ∃ base, base ∈ paths ∧ path d ∈ fs_glob fs base ∧
          parse_desktop_file (path d) (fs_read fs (path d)) = Some d.
Proof.
  rewrite collect_perm. intros Hd%first_of_name_subseteq.
  apply scanned_elem in Hd as (Hv & base & p & Hb & Hp & Hparse).
  split; [done|]. exists base.
  by rewrite (parse_desktop_file_path _ _ _ Hparse).
Qed.

Lemma collect_provenance_witness :
  no_display editor_a = false ∧
  ∃ base, base ∈ [lit "/a"; lit "/b"] ∧ path editor_a ∈ fs_glob fs_editors base ∧
          parse_desktop_file (path editor_a) (fs_read fs_editors (path editor_a))
          = Some editor_a.
Proof.
  apply (collect_provenance fs_editors [lit "/a"; lit "/b"] editor_a).
  vm_compute. left.
Defined.

(** X12: a directory that is listed a second time at the end of the path
    adds nothing. *)
Theorem collect_repeated_directory (fs : FileSystem) (paths : list str) (base : str) :
  base ∈ paths →
  collect_desktop_entries fs (paths ++ [base]) = collect_desktop_entries fs paths.
Proof.
  intros Hb. rewrite !collect_eq, scanned_app. f_equal.
  apply first_of_name_app_covered. intros d Hd. right.
  apply list_elem_of_fmap. exists d. split; [done|].
  apply scanned_elem in Hd as (Hv & base' & p & ->%list_elem_of_singleton & Hp & Hparse).
  apply scanned_elem. split; [done|]. by exists base, p.
Qed.

Lemma collect_repeated_directory_witness :
  collect_desktop_entries fs_editors ([lit "/a"; lit "/b"] ++ [lit "/a"])
  = collect_desktop_entries fs_editors [lit "/a"; lit "/b"].
Proof.
  apply (collect_repeated_directory fs_editors [lit "/a"; lit "/b"] (lit "/a")). left.
Defined.

(** X13: a directory without files, or whose files are all rejected or
    hidden, contributes nothing, wherever it stands in the path. *)
Theorem collect_barren_directory (fs : FileSystem) (l1 l2 : list str) (base : str) :
  (∀ p d, p ∈ fs_glob fs base → parse_desktop_file p (fs_read fs p) = Some d →
          no_display d = true) →
  collect_desktop_entries fs (l1 ++ base :: l2) = collect_desktop_entries fs (l1 ++ l2).
Proof.
  intros H. rewrite !collect_eq. do 2 f_equal.
  change (base :: l2) with ([base] ++ l2). rewrite !scanned_app.
  assert (scanned fs [base] = []) as ->; [|done].
  destruct (scanned fs [base]) as [|d ds] eqn:E; [done|].
  assert (d ∈ scanned fs [base]) as Hd by (rewrite E; left).
  apply scanned_elem in Hd as (Hv & base' & p & ->%list_elem_of_singleton & Hp & Hparse).
  rewrite (H p d Hp Hparse) in Hv. done.
Qed.

Lemma collect_barren_directory_witness :
  collect_desktop_entries fs_editors ([lit "/a"] ++ lit "/none" :: [lit "/b"])
  = collect_desktop_entries fs_editors ([lit "/a"] ++ [lit "/b"]).
Proof.
  apply (collect_barren_directory fs_editors [lit "/a"] [lit "/b"] (lit "/none")).
  intros p d Hp. vm_compute in Hp. by apply elem_of_nil in Hp.
Defined.

(** ** Re-ranking on every edit *)






Lemma rank_fst_perm (q : str) (es : list DesktopEntry) :
  (rank q es).*1 ≡ₚ filter (has_match q) es.
Proof. by rewrite rank_perm, scored_fst. Qed.

(** X14: running [update_filter] twice is running it once. *)
Theorem update_filter_idemp (ui : LauncherUI) :
  update_filter (update_filter ui) = update_filter ui.
Proof.
  unfold update_filter. simpl.
  set (f := rank (strip (query ui)) (entries ui)). f_equal.
  assert (0 <= len f) by (unfold len; lia).
  destruct (Z.leb_spec (len f) (selected ui)).
  - destruct (Z.leb_spec (len f) (Z.max 0 (len f - 1))); lia.
  - destruct (Z.leb_spec (len f) (selected ui)); lia.
Qed.



(** ** The selection loop *)

Lemma handle_printable (ui : LauncherUI) (c : ascii) :
  isprintable c = true →
  handle ui (WStr c) = Continue (update_filter (with_query ui (query ui ++ [c]))).
Proof.
  intros Hc. simpl.
  case_bool_decide as E1; [subst c; discriminate Hc|].
  case_bool_decide as E2; [subst c; discriminate Hc|].
  case_bool_decide as E3; [subst c; discriminate Hc|].
  case_bool_decide as E4.
  { repeat (apply elem_of_cons in E4 as [->|E4]; [discriminate Hc|]).
    by apply elem_of_nil in E4. }
  by rewrite Hc.
Qed.

Lemma drop_last_snoc (q : str) (c : ascii) : drop_last (q ++ [c]) = q.
Proof.
  unfold drop_last. apply take_app_length'. rewrite length_app. simpl. lia.
Qed.

Lemma update_filter_consistent (ui : LauncherUI) :
  entries (update_filter ui) = entries ui ∧ query (update_filter ui) = query ui ∧
  consistent (update_filter ui).
Proof. done. Qed.

Lemma handle_consistent (ui ui' : LauncherUI) (ch : wch) :
  consistent ui → handle ui ch = Continue ui' →
  entries ui' = entries ui ∧ consistent ui'.
Proof.
  intros Hc. destruct ch as [c|k]; simpl.
  - repeat case_bool_decide; try destruct (getitem _ _); try destruct (isprintable c);
      intros [= <-]; done.
  - repeat case_bool_decide; intros [= <-]; done.
Qed.

Lemma getitem_elem {A} (l : list A) (i : Z) (x : A) : getitem l i = Some x → x ∈ l.
Proof.
  unfold getitem. destruct (0 <=? i); [|destruct (- len l <=? i); [|done]];
    apply list_elem_of_lookup_2.
Qed.

Lemma getitem_bounds {A} (l : list A) (i : Z) :
  l ≠ [] → -1 <= i < len l → is_Some (getitem l i).
Proof.
  intros Hl%len_pos Hi. unfold getitem, len in *.
  destruct (Z.leb_spec 0 i).
  - apply lookup_lt_is_Some_2. lia.
  - destruct (Z.leb_spec (- Z.of_nat (length l)) i); [|lia].
    apply lookup_lt_is_Some_2. lia.
Qed.

Lemma update_filter_bounds (ui : LauncherUI) :
  -1 <= selected ui → selection_bounds (update_filter ui).
Proof.
  intros Hs. unfold selection_bounds, update_filter. simpl.
  set (f := rank (strip (query ui)) (entries ui)).
  destruct (Z.leb_spec (len f) (selected ui)); split; try lia.
  intros ?%len_pos. lia.
Qed.

Lemma handle_bounds (ui : LauncherUI) (ch : wch) :
  selection_bounds ui →
  handle ui ch ≠ IndexError ∧
  ∀ ui', handle ui ch = Continue ui' → selection_bounds ui'.
Proof.
  intros [Hlo Hhi].
  assert (0 <= len (filtered ui)) as Hlen by (unfold len; lia).
  assert (∀ i, -1 <= i → (filtered ui ≠ [] → i < len (filtered ui)) →
               selection_bounds (with_selected ui i)) as Hsel by (intros i ? ?; by split).
  destruct ch as [c|k]; simpl.
  - repeat case_bool_decide;
      try (split; [done|]; intros ui' [= <-];
           first [by split | by apply update_filter_bounds]).
    + assert (is_Some (getitem (filtered ui) (selected ui))) as [x ->]
        by (apply getitem_bounds; [done | split; [done | by apply Hhi]]).
      split; [done | by intros ui' [=]].
    + destruct (isprintable c); (split; [done|]); intros ui' [= <-];
        first [by split | by apply update_filter_bounds].
  - repeat case_bool_decide; (split; [done|]); intros ui' [= <-];
      first [by split | by apply update_filter_bounds | apply Hsel; [lia|]];
      intros Hne; pose proof (len_pos _ Hne); apply Hhi in Hne; lia.
Qed.

Lemma draw_cur_bounds (ui : LauncherUI) : selection_bounds ui → is_Some (draw_cur ui).
Proof.
  intros [Hlo Hhi]. unfold draw_cur. case_bool_decide as He; [done|].
  assert (is_Some (getitem (filtered ui) (selected ui))) as [x ->]
    by (apply getitem_bounds; [done | split; [done | by apply Hhi]]).
  done.
Qed.

Lemma run_bounds (input : list wch) (ui : LauncherUI) :
  selection_bounds ui →
  run ui input ≠ Raised ∧ ∀ ui', run ui input = Waiting ui' → selection_bounds ui'.
Proof.
  revert ui. induction input as [|ch input IH]; intros ui Hb; cbn [run];
    destruct (draw_cur_bounds ui Hb) as [cur ->].
  - split; [done | by intros ui' [= <-]].
  - destruct (handle_bounds ui ch Hb) as [Hne Hk].
    destruct (handle ui ch) as [ui1| | |]; try done. by apply IH, Hk.
Qed.

Lemma run_consistent (input : list wch) (ui : LauncherUI) :
  consistent ui →
  (∀ ui', run ui input = Waiting ui' → entries ui' = entries ui ∧ consistent ui') ∧
  (∀ e, run ui input = Launched e → e ∈ entries ui).
Proof.
  revert ui. induction input as [|ch input IH]; intros ui Hc; cbn [run];
    destruct (draw_cur ui); try done.
  - split; [by intros ui' [= <-] | done].
  - destruct (handle ui ch) as [ui1|e1| |] eqn:Hh; try done.
    + destruct (handle_consistent ui ui1 ch Hc Hh) as [He Hc1].
      rewrite <- He. by apply IH.
    + split; [done|]. intros e [= <-].
      destruct ch as [c|k]; simpl in Hh.
      * repeat case_bool_decide; try done.
        -- destruct (getitem (filtered ui) (selected ui)) as [x|] eqn:Hx; [|done].
           injection Hh as <-. apply getitem_elem in Hx. rewrite Hc in Hx.
           assert (x.1 ∈ (rank (strip (query ui)) (entries ui)).*1) as Hin
             by (apply list_elem_of_fmap; eauto).
           rewrite rank_fst_perm in Hin. by apply list_elem_of_filter in Hin as [_ ?].
        -- by destruct (isprintable c).
      * repeat case_bool_decide; done.
Qed.

Lemma init_consistent (es : list DesktopEntry) :
  entries (init es) = es ∧ consistent (init es) ∧ selection_bounds (init es).
Proof. split_and!; [done | done |]. by apply update_filter_bounds. Qed.

(** X16: every printable character, [q] and [Q] included, is appended to
    the query and the list is ranked again; the loop goes on with the next
    event. *)
Theorem typing_continues (ui : LauncherUI) (c : ascii) (input : list wch) :
  isprintable c = true → selection_bounds ui →
  handle ui (WStr c) = Continue (update_filter (with_query ui (query ui ++ [c]))) ∧
  run ui (WStr c :: input) = run (update_filter (with_query ui (query ui ++ [c]))) input.
Proof.
  intros Hc Hb. pose proof (handle_printable ui c Hc) as Hh. split; [done|].
  cbn [run]. destruct (draw_cur_bounds ui Hb) as [cur ->]. by rewrite Hh.
Qed.

Lemma typing_continues_witness :
  run (init [firefox]) [WStr "q"%char; WStr "Q"%char]
  = run (update_filter (with_query (init [firefox]) (query (init [firefox]) ++ ["q"%char])))
      [WStr "Q"%char].
Proof.
  apply (typing_continues (init [firefox]) "q"%char [WStr "Q"%char]).
  - reflexivity.
  - split; [vm_compute; discriminate | intros _; reflexivity].
Defined.

(** X17: whatever the events, the candidates stay those the loop started
    with, and the ranked list is the ranking of the current query. *)
Theorem run_keeps_consistent (es : list DesktopEntry) (input : list wch) (ui : LauncherUI) :
  run (init es) input = Waiting ui →
  entries ui = es ∧ filtered ui = rank (strip (query ui)) es.
Proof.
  intros Hr. destruct (init_consistent es) as (He & Hc & _).
  destruct (run_consistent input (init es) Hc) as [H _].
  destruct (H ui Hr) as [He' Hc']. rewrite He in He'.
  split; [done|]. unfold consistent in Hc'. by rewrite He' in Hc'.
Qed.

Lemma run_keeps_consistent_witness :
  entries ui_no_match = [firefox] ∧
  filtered ui_no_match = rank (strip (query ui_no_match)) [firefox].
Proof.
  apply (run_keeps_consistent [firefox] [WStr "z"%char; WInt KEY_NPAGE; WInt KEY_UP]).
  reflexivity.
Defined.

(** X18: the loop never ends in an exception: after every sequence of
    events the selected index is at least [-1] and, on a list that is not
    empty, below its length, so that [self.filtered[self.selected]] is
    defined. *)
Theorem run_never_raises (es : list DesktopEntry) (input : list wch) :
  run (init es) input ≠ Raised ∧
  ∀ ui, run (init es) input = Waiting ui →
        -1 <= selected ui ∧ (filtered ui ≠ [] → selected ui < len (filtered ui)).
Proof.
  destruct (init_consistent es) as (_ & _ & Hb). by apply run_bounds.
Qed.

Lemma run_never_raises_witness :
  -1 <= selected (with_selected ui_no_match (-1)) ∧
  (filtered (with_selected ui_no_match (-1)) ≠ [] →
   selected (with_selected ui_no_match (-1)) < len (filtered (with_selected ui_no_match (-1)))).
Proof.
  destruct (run_never_raises [firefox] [WStr "z"%char; WInt KEY_NPAGE]) as [_ H].
  apply H. reflexivity.
Defined.

(** X19: the entry that a confirm launches is one of the candidates the
    loop started with. *)
Theorem launched_is_candidate (es : list DesktopEntry) (input : list wch) (e : DesktopEntry) :
  run (init es) input = Launched e → e ∈ es.
Proof.
  intros Hr. destruct (init_consistent es) as (He & Hc & _).
  destruct (run_consistent input (init es) Hc) as [_ H].
  rewrite <- He. by apply H.
Qed.

Lemma launched_is_candidate_witness : firefox ∈ [firefox].
Proof.
  apply (launched_is_candidate [firefox] [WStr "f"%char; WStr "010"%char; WStr "x"%char]).
  reflexivity.
Defined.

(** X20: typing a printable character and erasing it gives back the query
    and, when the ranked list was the ranking of the query, the ranked
    list. *)
Theorem type_then_erase (ui ui1 ui2 : LauncherUI) (c : ascii) :
  isprintable c = true → consistent ui →
  handle ui (WStr c) = Continue ui1 →
  handle ui1 (WInt KEY_BACKSPACE) = Continue ui2 →
  query ui2 = query ui ∧ entries ui2 = entries ui ∧ filtered ui2 = filtered ui.
Proof.
  intros Hc Hcons. rewrite (handle_printable ui c Hc). intros [= <-].
  simpl. intros [= <-]. simpl. rewrite drop_last_snoc. split_and!; [done | done |].
  symmetry. exact Hcons.
Qed.

Lemma type_then_erase_witness :
  query (init [firefox]) = [] ∧ filtered (init [firefox]) = [(firefox, 0)].
Proof.
  destruct (type_then_erase (init [firefox])
              (update_filter (with_query (init [firefox]) (lit "z")))
              (update_filter (with_query (init [firefox]) []))
              "z"%char) as (Hq & _ & Hf); [reflexivity | reflexivity | reflexivity | reflexivity |].
  split; [exact Hq | exact Hf].
Defined.

(** ** Terminal resolver *)

(** X21: [find_terminal] (the loop over [TERMINAL_CANDIDATES], or any list
    of candidates) returns the path of the first candidate that [which]
    resolves to a path that is not empty, and [None] when there is no such
    candidate. *)
Theorem find_terminal_first (which : str → option str) (candidates : list str) :
  match find_terminal_in which candidates with
  | Some p =>
      p ≠ [] ∧
      ∃ i t, candidates !! i = Some t ∧ which t = Some p ∧
             ∀ j t', (j < i)%nat → candidates !! j = Some t' →
                     which t' = None ∨ which t' = Some []
  | None => ∀ t, t ∈ candidates → which t = None ∨ which t = Some []
  end.
Proof.
  induction candidates as [|t0 candidates IH]; simpl.
  - by intros t ?%elem_of_nil.
  - assert (which t0 = None ∨ which t0 = Some [] →
            match find_terminal_in which candidates with
            | Some p =>
                p ≠ [] ∧
                ∃ i t, (t0 :: candidates) !! i = Some t ∧ which t = Some p ∧
                       ∀ j t', (j < i)%nat → (t0 :: candidates) !! j = Some t' →
                               which t' = None ∨ which t' = Some []
            | None => ∀ t, t ∈ t0 :: candidates → which t = None ∨ which t = Some []
            end) as Hskip.
    { intros H0. destruct (find_terminal_in which candidates) as [p|].
      - destruct IH as (Hp & i & t & Hi & Ht & Hfirst). split; [done|].
        exists (S i), t. split_and!; [done | done |].
        intros [|j] t' Hj; simpl; [by intros [= <-] | apply Hfirst; lia].
      - intros t [->|Ht]%elem_of_cons; [done | by apply IH]. }
    destruct (which t0) as [p|] eqn:E; [|by apply Hskip; left].
    case_bool_decide as Hp; [apply Hskip; right; by rewrite Hp|].
    split; [done|]. exists 0%nat, t0. split_and!; [done | done |].
    intros j t' Hj. lia.
Qed.

Example find_terminal_xterm :
  find_terminal (λ t, if bool_decide (t = lit "xterm") then Some (lit "/usr/bin/xterm") else None)
  = Some (lit "/usr/bin/xterm").
Proof. reflexivity. Qed.

(** ** Launching *)

(** X22: [launch] does nothing for a blank command.  Otherwise every
    [Popen] it tries ends in the same detached command; it stops at the
    first that succeeds, so at most one process is spawned; it raises only
    when the last resort, the direct [sh -c], fails; and it goes straight
    to the direct [sh -c] for an entry that needs no terminal, or when no
    terminal emulator was found. *)
Theorem launch_spawns_once (term : option str) (popen : list str → bool)
    (entry : DesktopEntry) (in_terminal : bool) :
  let tr := launch term popen entry in_terminal in
  let cmd := detached_cmd (strip (exec entry)) in
  (strip (exec entry) = [] → popen_calls tr = [] ∧ launch_raised tr = false) ∧
  (strip (exec entry) ≠ [] →
   (∀ args, args ∈ popen_calls tr → last args = Some cmd) ∧
   (∃ before args, popen_calls tr = before ++ [args] ∧
                   Forall (λ a, popen a = false) before ∧
                   launch_raised tr = negb (popen args) ∧
                   (launch_raised tr = true → args = [lit "sh"; lit "-c"; cmd])) ∧
   ((in_terminal = false ∧ terminal entry = false) ∨ term = None ∨ term = Some [] →
    popen_calls tr = [[lit "sh"; lit "-c"; cmd]])).
Proof.
  intros tr cmd. subst tr. unfold launch. fold cmd. split.
  { intros ->. by rewrite bool_decide_eq_true_2. }
  intros Hne. rewrite bool_decide_eq_false_2 by done.
  assert (∀ calls,
    Forall (λ a, last a = Some cmd) calls → Forall (λ a, popen a = false) calls →
    let tr := popen_direct popen calls cmd in
    (∀ args, args ∈ popen_calls tr → last args = Some cmd) ∧
    (∃ before args, popen_calls tr = before ++ [args] ∧
                    Forall (λ a, popen a = false) before ∧
                    launch_raised tr = negb (popen args) ∧
                    (launch_raised tr = true → args = [lit "sh"; lit "-c"; cmd])))
    as Hdirect.
  { intros calls Hlast Hfail. simpl. split.
    - intros args [Ha|Ha%list_elem_of_singleton]%elem_of_app; [|by subst args].
      rewrite Forall_forall in Hlast. by apply Hlast.
    - by exists calls, [lit "sh"; lit "-c"; cmd]. }
  destruct (in_terminal || terminal entry && PREFER_TERMINAL_FOR_TERMINAL_ENTRIES) eqn:Hterm.
  2: { destruct (Hdirect [] (Forall_nil_2 _) (Forall_nil_2 _)) as [H1 H2].
       split_and!; [done | done | done]. }
  destruct term as [t|].
  2: { destruct (Hdirect [] (Forall_nil_2 _) (Forall_nil_2 _)) as [H1 H2].
       split_and!; [done | done | done]. }
  case_bool_decide as Ht.
  { destruct (Hdirect [] (Forall_nil_2 _) (Forall_nil_2 _)) as [H1 H2].
    split_and!; [done | done | done]. }
  assert (¬ ((in_terminal = false ∧ terminal entry = false) ∨ Some t = None ∨ Some t = Some []))
    as Hnot.
  { intros [[Hi He]|[?|[= ?]]]; [|done..]. rewrite Hi, He in Hterm. done. }
  set (first := [t; lit "-e"; lit "sh"; lit "-c"; cmd]).
  set (second := [t; lit "-e"; cmd]).
  destruct (popen first) eqn:H1.
  { split_and!; [|exists [], first; by rewrite H1 | done].
    intros args Ha%list_elem_of_singleton. by subst args. }
  destruct (popen second) eqn:H2.
  { split_and!; [|exists [first], second; rewrite H2; split_and!; by repeat constructor | done].
    intros args [Ha|Ha%list_elem_of_singleton]%elem_of_cons; by subst args. }
  destruct (Hdirect [first; second]) as [Ha Hb]; [by repeat constructor.. |].
  split_and!; [done | done | done].
Qed.

Lemma launch_spawns_once_witness :
  popen_calls (launch None (λ _, true) firefox false)
  = [[lit "sh"; lit "-c"; detached_cmd (strip (exec firefox))]].
Proof.
  destruct (launch_spawns_once None (λ _, true) firefox false) as [_ H].
  destruct H as (_ & _ & H); [discriminate|].
  apply H. right. left. reflexivity.
Defined.

(** ** Powerline layout *)

Lemma len_slice_to (s : str) (n : Z) : 0 <= n → len (slice_to s n) <= n.
Proof.
  intros Hn. unfold slice_to, len.
  destruct (Z.leb_spec 0 n); [|lia]. rewrite length_take. lia.
Qed.

(** X23: the launch command shown in the powerline is cut to
    [max(0, w - 10)] characters; on a screen of at least 10 columns it is
    drawn right of the label and ends two columns before the right edge
    with colours, one column before it without. *)
Theorem powerline_exec_fits (cur : option DesktopEntry) (w : Z) :
  let sel_exec := powerline_exec cur w in
  len sel_exec <= Z.max 0 (w - 10) ∧
  (10 <= w →
   powerline_rx_colors sel_exec w = w - len sel_exec - 2 ∧
   len powerline_left + 2 <= powerline_rx_colors sel_exec w ∧
   powerline_rx_plain sel_exec w = w - len sel_exec - 1).
Proof.
  intros sel_exec.
  assert (len sel_exec <= Z.max 0 (w - 10)) as Hlen.
  { subst sel_exec. unfold powerline_exec.
    change (len powerline_left) with 6.
    set (text := clean_text _). replace (w - (6 + 4)) with (w - 10) by lia.
    set (right_space := Z.max 0 (w - 10)).
    destruct (Z.ltb_spec right_space (len text)); [|lia].
    destruct (Z.leb_spec 4 right_space).
    - pose proof (len_slice_to text (right_space - 3)) as Hs.
      unfold len in *. rewrite length_app. simpl. lia.
    - apply len_slice_to. lia. }
  split; [done|]. intros Hw.
  unfold powerline_rx_colors, powerline_rx_plain. change (len powerline_left) with 6.
  assert (0 <= len sel_exec) by (unfold len; lia). lia.
Qed.

Lemma powerline_exec_fits_witness :
  powerline_rx_colors (powerline_exec (Some firefox) 14) 14
    = 14 - len (powerline_exec (Some firefox) 14) - 2 ∧
  len powerline_left + 2 <= powerline_rx_colors (powerline_exec (Some firefox) 14) 14 ∧
  powerline_rx_plain (powerline_exec (Some firefox) 14) 14
    = 14 - len (powerline_exec (Some firefox) 14) - 1.
Proof.
  destruct (powerline_exec_fits (Some firefox) 14) as [_ H]. apply H. lia.
Defined.

(** ** Entry point *)



Section sort_by_sorted_id.
Context {A K : Type} (lt : K → K → bool) (key : A → K).

(** Sorting a sorted list changes nothing. *)
Lemma sort_by_sorted_id (l : list A) :
  StronglySorted (λ x y, lt (key y) (key x) = false) l → sort_by lt key l = l.
Proof.
  induction 1 as [|x l _ IH Hx]; [done|].
  unfold sort_by in *. simpl. rewrite IH.
  destruct Hx as [|y l Hy _]; [done|]. simpl. by rewrite Hy.
Qed.
End sort_by_sorted_id.

(** X25: the list the loop starts with is the loaded list, in the order of
    the load, every score 0, the first entry selected. *)
Theorem init_shows_loaded_list (fs : FileSystem) (paths : list str) :
  let es := collect_desktop_entries fs paths in
  filtered (init es) = (λ e, (e, 0)) <$> es ∧ selected (init es) = 0.
Proof.
  intros es. split.
  - change (filtered (init es)) with (rank [] es). rewrite rank_empty_query. f_equal.
    apply sort_by_sorted_id. unfold es, collect_desktop_entries.
    apply (sort_by_sorted str_lt (λ x, lower (name x))); [apply str_lt_asym | apply str_le_trans].
  - unfold init, update_filter. cbn [selected entries query].
    generalize (rank (strip []) es). intros f.
    assert (0 <= len f) by (unfold len; lia).
    destruct (Z.leb_spec (len f) 0); lia.
Qed.
